(** * The editor-bridge control plane of the VS Code IDE companion

    A shallow embedding of three source files of
    [packages/vscode-ide-companion/src]:

    - [open-files-manager.ts]: the tracker of recently active files
      (module [OFM]);
    - [diff-manager.ts]: the diff views and their content provider
      (module [Diff]);
    - [ide-server.ts]: the access-control middlewares, the [/mcp] routes
      and the keep-alive timer (module [Server]).

    JavaScript objects that the code mutates in place are kept in an
    explicit store and referred to by reference, so aliasing between the
    manager's list and a snapshot handed out earlier is visible. *)

From Stdlib Require Import String Ascii.
From stdpp Require Import base option list gmap strings pretty.

Set Warnings "-abstract-large-number".

(** Closed decidable goals are settled by evaluation. *)
Ltac by_compute := apply (bool_decide_unpack _); vm_compute; exact I.

(** ** Values shared by the three components *)

(** [vscode.Uri], with the components the code reads or builds. For a
    [file] URI, [fsPath] is the [path] component. *)
Record Uri := mkUri {
  scheme : string;
  uri_path : string;
  query : string
}.

Definition fsPath (u : Uri) : string := uri_path u.

Definition file_uri (p : string) : Uri :=
  {| scheme := "file"; uri_path := p; query := "" |}.

#[global] Instance Uri_eq_dec : EqDecision Uri.
Proof. solve_decision. Defined.

(** [vscode.Position]: zero-based line and character. *)
Record Position := mkPosition {
  line : nat;
  character : nat
}.

#[global] Instance Position_eq_dec : EqDecision Position.
Proof. solve_decision. Defined.

(** What the code reads of a [vscode.TextEditor]: the URI of its document,
    [selection.active], and [document.getText(selection)]. *)
Record TextEditor := mkEditor {
  document_uri : Uri;
  selection_active : option Position;
  selection_text : string
}.

(** ** open-files-manager.ts *)

Module OFM.

Definition MAX_FILES : nat := 10.
Definition MAX_SELECTED_TEXT_LENGTH : nat := 16384.
Definition TRUNCATED : string := "... [TRUNCATED]".

(** The [File] type of the core package: [cursor] and [selectedText] are
    optional fields; [cursor.line] is one-based. *)
Record File := mkFile {
  path : string;
  timestamp : nat;
  isActive : bool;
  cursor : option Position;
  selectedText : option string
}.

#[global] Instance File_eq_dec : EqDecision File.
Proof. solve_decision. Defined.

#[global] Instance File_inhabited : Inhabited File :=
  populate (mkFile "" 0 false None None).

(** The manager: [objects] is the store of [File] records allocated so far
    (a reference is an index into it), [openFiles] the array of references
    held in the private field of the same name. *)
Record t := mk {
  objects : list File;
  openFiles : list nat
}.

Definition empty : t := {| objects := []; openFiles := [] |}.

(** The records an array of references denotes in a store. *)
Definition read (h : list File) (rs : list nat) : list File :=
  (λ r, h !!! r) <$> rs.

Definition files (s : t) : list File := read (objects s) (openFiles s).

Definition isFileUri (u : Uri) : bool := bool_decide (scheme u = "file").

(** [Array.prototype.find] and [findIndex] on an array of references. *)
Definition find_ref (h : list File) (P : File → Prop) `{∀ f, Decision (P f)}
    (rs : list nat) : option nat :=
  snd <$> list_find (λ r, P (h !!! r)) rs.

Definition findIndex (h : list File) (P : File → Prop) `{∀ f, Decision (P f)}
    (rs : list nat) : option nat :=
  fst <$> list_find (λ r, P (h !!! r)) rs.

(** [Array.prototype.pop]. *)
Definition pop {A} (l : list A) : list A := take (length l - 1) l.

(** The three assignments of the first block of [addOrMoveToFront]. *)
Definition deactivate (f : File) : File :=
  {| path := path f; timestamp := timestamp f;
     isActive := false; cursor := None; selectedText := None |}.

Definition set_path (p : string) (f : File) : File :=
  {| path := p; timestamp := timestamp f; isActive := isActive f;
     cursor := cursor f; selectedText := selectedText f |}.

(** [selection.active ? {line: line + 1, character} : undefined] *)
Definition cursor_of (a : option Position) : option Position :=
  (λ p, {| line := line p + 1; character := character p |}) <$> a.

(** The value [updateActiveContext] stores for the text [getText] returned:
    [getText(...) || undefined], then the truncation. *)
Definition selected_of (txt : string) : option string :=
  let selectedText := if decide (txt = "") then None else Some txt in
  match selectedText with
  | Some s =>
      if decide (MAX_SELECTED_TEXT_LENGTH < String.length s)
      then Some (String.substring 0 MAX_SELECTED_TEXT_LENGTH s +:+ TRUNCATED)
      else Some s
  | None => None
  end.

Definition set_context (e : TextEditor) (f : File) : File :=
  {| path := path f; timestamp := timestamp f; isActive := isActive f;
     cursor := cursor_of (selection_active e);
     selectedText := selected_of (selection_text e) |}.

Definition updateActiveContext (e : TextEditor) (s : t) : t :=
  match find_ref (objects s) (λ f, path f = fsPath (document_uri e))
          (openFiles s) with
  | None => s
  | Some r =>
      if isActive (objects s !!! r)
      then {| objects := alter (set_context e) r (objects s);
              openFiles := openFiles s |}
      else s
  end.

(** [now] is the value [Date.now()] returns during the call. *)
Definition addOrMoveToFront (e : TextEditor) (now : nat) (s : t) : t :=
  let h1 :=
    match find_ref (objects s) (λ f, isActive f = true) (openFiles s) with
    | Some currentActive => alter deactivate currentActive (objects s)
    | None => objects s
    end in
  let rs1 :=
    match findIndex h1 (λ f, path f = fsPath (document_uri e))
            (openFiles s) with
    | Some index => delete index (openFiles s)
    | None => openFiles s
    end in
  let fresh := length h1 in
  let h2 := h1 ++ [mkFile (fsPath (document_uri e)) now true None None] in
  let rs2 := fresh :: rs1 in
  let rs3 := if decide (MAX_FILES < length rs2) then pop rs2 else rs2 in
  updateActiveContext e {| objects := h2; openFiles := rs3 |}.

Definition remove (u : Uri) (s : t) : t :=
  match findIndex (objects s) (λ f, path f = fsPath u) (openFiles s) with
  | Some index =>
      {| objects := objects s; openFiles := delete index (openFiles s) |}
  | None => s
  end.

(** [findIndex], then the assignment through [this.openFiles[index]]:
    [list_find] returns the index together with the reference there. *)
Definition rename (oldUri newUri : Uri) (s : t) : t :=
  match list_find (λ r, path (objects s !!! r) = fsPath oldUri)
          (openFiles s) with
  | Some (_, r) =>
      {| objects := alter (set_path (fsPath newUri)) r (objects s);
         openFiles := openFiles s |}
  | None => s
  end.

(** The five listeners the constructor registers. The debounced change
    signal they all schedule carries no data and is left out. *)
Inductive Event :=
  | DidChangeActiveTextEditor (editor : option TextEditor) (now : nat)
  | DidChangeTextEditorSelection (editor : TextEditor)
  | DidCloseTextDocument (uri : Uri)
  | DidDeleteFiles (uris : list Uri)
  | DidRenameFiles (pairs : list (Uri * Uri)).

Definition rename_one (s : t) (p : Uri * Uri) : t :=
  let '(oldUri, newUri) := p in
  if isFileUri oldUri
  then if isFileUri newUri then rename oldUri newUri s else remove oldUri s
  else s.

Definition handle (s : t) (ev : Event) : t :=
  match ev with
  | DidChangeActiveTextEditor (Some e) now =>
      if isFileUri (document_uri e) then addOrMoveToFront e now s else s
  | DidChangeActiveTextEditor None _ => s
  | DidChangeTextEditorSelection e =>
      if isFileUri (document_uri e) then updateActiveContext e s else s
  | DidCloseTextDocument u => if isFileUri u then remove u s else s
  | DidDeleteFiles us =>
      foldl (λ s u, if isFileUri u then remove u s else s) s us
  | DidRenameFiles ps => foldl rename_one s ps
  end.

Definition run (evs : list Event) (s : t) : t := foldl handle s evs.

(** The constructor: the listeners, then the editor active at start-up. *)
Definition create (active : option TextEditor) (now : nat) : t :=
  handle empty (DidChangeActiveTextEditor active now).

(** The [state] getter: [openFiles: [...this.openFiles]] copies the array
    of references, not the records. [isTrusted] is read from the editor. *)
Record IdeContext := mkContext {
  ctx_openFiles : list nat;
  ctx_isTrusted : bool
}.

Definition state (isTrusted : bool) (s : t) : IdeContext :=
  {| ctx_openFiles := openFiles s; ctx_isTrusted := isTrusted |}.

(** What a holder of a snapshot reads through it when the store is [h]. *)
Definition observe (h : list File) (c : IdeContext) : list File :=
  read h (ctx_openFiles c).

(** *** The same operations read on the list of records

    These functions act on the records the array denotes. The simulation
    lemmas of [OFMFacts] show that each operation of the manager has this
    effect on [files]; the invariants are then proved on plain lists. *)

Definition remove_l (p : string) (l : list File) : list File :=
  match list_find (λ f, path f = p) l with
  | Some (index, _) => delete index l
  | None => l
  end.

Definition rename_l (old new : string) (l : list File) : list File :=
  match list_find (λ f, path f = old) l with
  | Some (index, _) => alter (set_path new) index l
  | None => l
  end.

Definition deactivate_l (l : list File) : list File :=
  match list_find (λ f, isActive f = true) l with
  | Some (index, _) => alter deactivate index l
  | None => l
  end.

Definition updateActiveContext_l (e : TextEditor) (l : list File)
    : list File :=
  match list_find (λ f, path f = fsPath (document_uri e)) l with
  | Some (index, f) =>
      if isActive f then alter (set_context e) index l else l
  | None => l
  end.

Definition cap {A} (l : list A) : list A :=
  if decide (MAX_FILES < length l) then pop l else l.

Definition addOrMoveToFront_l (e : TextEditor) (now : nat) (l : list File)
    : list File :=
  let p := fsPath (document_uri e) in
  updateActiveContext_l e
    (cap (mkFile p now true None None :: remove_l p (deactivate_l l))).

Definition paths (l : list File) : list string := path <$> l.

(** A record that is not active and carries neither cursor nor selection. *)
Definition clean (f : File) : Prop :=
  isActive f = false ∧ cursor f = None ∧ selectedText f = None.

Definition active_count (l : list File) : nat :=
  length (filter (λ f, isActive f = true) l).

(** Only the front entry can be active or carry a cursor or a selection. *)
Definition front_only (l : list File) : Prop :=
  match l with
  | [] => True
  | f :: tl => (isActive f = true ∨ clean f) ∧ Forall clean tl
  end.

(** Well-formed managers: the array holds distinct, allocated references. *)
Definition wf (s : t) : Prop :=
  NoDup (openFiles s) ∧ Forall (λ r, r < length (objects s)) (openFiles s).

(** The paths of the editors a sequence of active-editor changes reports
    with a [file] URI, oldest first. *)
Definition activated (acts : list (option TextEditor * nat)) : list string :=
  omap (λ a, match a.1 with
             | Some e => if isFileUri (document_uri e)
                         then Some (fsPath (document_uri e)) else None
             | None => None
             end) acts.

Definition activation (a : option TextEditor * nat) : Event :=
  DidChangeActiveTextEditor a.1 a.2.

(** Most recently used first: the last occurrence of every path, newest
    first. *)
Definition mru (ps : list string) : list string := reverse (remove_dups ps).

(** How a record may differ from its earlier self. *)
Definition later (f f' : File) : Prop :=
  timestamp f' = timestamp f ∧ (clean f → clean f').

(** *** Concrete editors used in the examples below *)

Definition editor (p : string) (l c : nat) (txt : string) : TextEditor :=
  {| document_uri := file_uri p;
     selection_active := Some {| line := l; character := c |};
     selection_text := txt |}.

Definition activate (p : string) (now : nat) : Event :=
  DidChangeActiveTextEditor (Some (editor p 0 0 "")) now.

Fixpoint repeat_char (c : ascii) (n : nat) : string :=
  match n with
  | 0 => EmptyString
  | S n => String c (repeat_char c n)
  end.

Definition ten_files : list (option TextEditor * nat) :=
  [ (Some (editor "/f0" 0 0 ""), 0); (Some (editor "/f1" 0 0 ""), 1);
    (Some (editor "/f2" 0 0 ""), 2); (Some (editor "/f3" 0 0 ""), 3);
    (Some (editor "/f4" 0 0 ""), 4); (Some (editor "/f5" 0 0 ""), 5);
    (Some (editor "/f6" 0 0 ""), 6); (Some (editor "/f7" 0 0 ""), 7);
    (Some (editor "/f8" 0 0 ""), 8); (Some (editor "/f9" 0 0 ""), 9) ].

End OFM.

(** ** diff-manager.ts *)

Module Diff.

Definition DIFF_SCHEME : string := "gemini-diff".

(** A JavaScript [Map] keyed by [uri.toString()]: an association list in
    insertion order. The string form of a URI determines its components,
    so the URI itself serves as the key. [set] on a key that is present
    replaces the value where it stands; on a new key it appends. *)
Abbreviation Map V := (list (Uri * V)).

Fixpoint map_get {V} (k : Uri) (m : Map V) : option V :=
  match m with
  | [] => None
  | (k', v) :: m => if decide (k' = k) then Some v else map_get k m
  end.

Fixpoint map_set {V} (k : Uri) (v : V) (m : Map V) : Map V :=
  match m with
  | [] => [(k, v)]
  | (k', v') :: m =>
      if decide (k' = k) then (k, v) :: m else (k', v') :: map_set k v m
  end.

Definition map_delete {V} (k : Uri) (m : Map V) : Map V :=
  filter (λ kv, kv.1 ≠ k) m.

Record DiffInfo := mkDiffInfo {
  originalFilePath : string;
  newContent : string;
  rightDocUri : Uri
}.

(** The two notifications the manager fires ([ide/diffAccepted] and
    [ide/diffClosed]), each with [filePath] and [content]. *)
Inductive Notification :=
  | DiffAccepted (filePath content : string)
  | DiffClosed (filePath content : string).

(** A tab of the editor showing a diff: [tab.input.original] and
    [tab.input.modified]. *)
Record Tab := mkTab {
  original : Uri;
  modified : Uri
}.

(** The manager together with the part of the editor it talks to.

    - [content]: the map of [DiffContentProvider];
    - [diffDocuments]: the map of [DiffManager];
    - [fired]: the notifications fired on [onDidChangeEmitter], oldest
      first;
    - [documents]: the text documents the editor holds open, with their
      current text (the right-hand document of a diff is editable, so its
      text can differ from the provider's);
    - [tabs]: the open diff tabs;
    - [isVisible]: the context key [gemini.diff.isVisible]. *)
Record t := mk {
  content : Map string;
  diffDocuments : Map DiffInfo;
  fired : list Notification;
  documents : Map string;
  tabs : list Tab;
  isVisible : bool
}.

Definition empty : t :=
  {| content := []; diffDocuments := []; fired := [];
     documents := []; tabs := []; isVisible := false |}.

(** [DiffContentProvider] *)

Definition provideTextDocumentContent (u : Uri) (s : t) : string :=
  default "" (map_get u (content s)).

(** [setContent] stores the text and fires the provider's change event,
    on which the editor reloads the document if it holds it open. *)
Definition setContent (u : Uri) (c : string) (s : t) : t :=
  {| content := map_set u c (content s);
     diffDocuments := diffDocuments s;
     fired := fired s;
     documents := match map_get u (documents s) with
                  | Some _ => map_set u c (documents s)
                  | None => documents s
                  end;
     tabs := tabs s;
     isVisible := isVisible s |}.

Definition deleteContent (u : Uri) (s : t) : t :=
  {| content := map_delete u (content s);
     diffDocuments := diffDocuments s;
     fired := fired s;
     documents := documents s;
     tabs := tabs s;
     isVisible := isVisible s |}.

(** The editor, at its interface. [vscode.workspace.openTextDocument]
    resolves to the document that is already open for the URI, or else
    opens it with the text the provider supplies. *)
Definition openTextDocument (u : Uri) (s : t) : string * t :=
  match map_get u (documents s) with
  | Some text => (text, s)
  | None =>
      let text := provideTextDocumentContent u s in
      (text,
       {| content := content s; diffDocuments := diffDocuments s;
          fired := fired s;
          documents := map_set u text (documents s);
          tabs := tabs s; isVisible := isVisible s |})
  end.

(** The text of the proposed-content surface of a diff: what
    [openTextDocument(u)] followed by [getText()] returns. *)
Definition surface (u : Uri) (s : t) : string := (openTextDocument u s).1.

Definition setContext (b : bool) (s : t) : t :=
  {| content := content s; diffDocuments := diffDocuments s;
     fired := fired s; documents := documents s; tabs := tabs s;
     isVisible := b |}.

(** The command [vscode.diff]: opens the right-hand document and a tab. *)
Definition vscode_diff (left right : Uri) (s : t) : t :=
  let s1 := (openTextDocument right s).2 in
  {| content := content s1; diffDocuments := diffDocuments s1;
     fired := fired s1; documents := documents s1;
     tabs := tabs s1 ++ [mkTab left right];
     isVisible := isVisible s1 |}.

(** The user types in a document that is open. *)
Definition userEdit (u : Uri) (text : string) (s : t) : t :=
  match map_get u (documents s) with
  | Some _ =>
      {| content := content s; diffDocuments := diffDocuments s;
         fired := fired s; documents := map_set u text (documents s);
         tabs := tabs s; isVisible := isVisible s |}
  | None => s
  end.

Definition fire (n : Notification) (s : t) : t :=
  {| content := content s; diffDocuments := diffDocuments s;
     fired := fired s ++ [n]; documents := documents s; tabs := tabs s;
     isVisible := isVisible s |}.

(** [DiffManager] *)

Definition addDiffDocument (u : Uri) (info : DiffInfo) (s : t) : t :=
  {| content := content s;
     diffDocuments := map_set u info (diffDocuments s);
     fired := fired s; documents := documents s; tabs := tabs s;
     isVisible := isVisible s |}.

(** The first tab whose [modified] URI is the one given is closed. *)
Fixpoint close_tab (u : Uri) (ts : list Tab) : list Tab :=
  match ts with
  | [] => []
  | tab :: ts =>
      if decide (modified tab = u) then ts else tab :: close_tab u ts
  end.

Definition closeDiffEditor (rightDocUri : Uri) (s : t) : t :=
  let diffInfo := map_get rightDocUri (diffDocuments s) in
  let s1 := setContext false s in
  let s2 :=
    match diffInfo with
    | Some _ =>
        deleteContent rightDocUri
          {| content := content s1;
             diffDocuments := map_delete rightDocUri (diffDocuments s1);
             fired := fired s1; documents := documents s1;
             tabs := tabs s1; isVisible := isVisible s1 |}
    | None => s1
    end in
  {| content := content s2; diffDocuments := diffDocuments s2;
     fired := fired s2; documents := documents s2;
     tabs := close_tab rightDocUri (tabs s2);
     isVisible := isVisible s2 |}.

(** The URI [showDiff] builds; [rand] is the text of [Math.random()]. *)
Definition right_uri (filePath rand : string) : Uri :=
  {| scheme := DIFF_SCHEME; uri_path := filePath;
     query := "rand=" +:+ rand |}.

(** [vscode.Uri.from] validates its components: for a URI without
    authority, as the ones built here, a path that begins with two slashes
    is refused with an exception. *)
Definition begins_with_two_slashes (path : string) : bool :=
  match path with
  | String "/" (String "/" _) => true
  | _ => false
  end.

Definition Uri_from (sch path qry : string) : option Uri :=
  if begins_with_two_slashes path then None
  else Some {| scheme := sch; uri_path := path; query := qry |}.

(** [exists] tells whether [vscode.workspace.fs.stat(fileUri)] succeeds.
    When [Uri.from] throws, the call is over before anything is stored
    (its promise is rejected): the state is the one before the call. *)
Definition showDiff (filePath newContent rand : string) (exists_ : bool)
    (s : t) : t :=
  let fileUri := file_uri filePath in
  match Uri_from DIFF_SCHEME filePath ("rand=" +:+ rand) with
  | None => s
  | Some rightDocUri =>
      let s1 := setContent rightDocUri newContent s in
      let s2 :=
        addDiffDocument rightDocUri
          {| originalFilePath := filePath; newContent := newContent;
             rightDocUri := rightDocUri |} s1 in
      let s3 := setContext true s2 in
      let leftDocUri :=
        if exists_ then fileUri
        else {| scheme := "untitled"; uri_path := filePath; query := "" |} in
      vscode_diff leftDocUri rightDocUri s3
  end.

Definition acceptDiff (rightDocUri : Uri) (s : t) : t :=
  match map_get rightDocUri (diffDocuments s) with
  | None => s
  | Some diffInfo =>
      let '(modifiedContent, s1) := openTextDocument rightDocUri s in
      let s2 := closeDiffEditor rightDocUri s1 in
      fire (DiffAccepted (originalFilePath diffInfo) modifiedContent) s2
  end.

Definition cancelDiff (rightDocUri : Uri) (s : t) : t :=
  match map_get rightDocUri (diffDocuments s) with
  | None => closeDiffEditor rightDocUri s
  | Some diffInfo =>
      let '(modifiedContent, s1) := openTextDocument rightDocUri s in
      let s2 := closeDiffEditor rightDocUri s1 in
      fire (DiffClosed (originalFilePath diffInfo) modifiedContent) s2
  end.

(** [closeDiff]: the first entry, in insertion order, for the path. *)
Definition closeDiff (filePath : string) (suppressNotification : bool)
    (s : t) : option string * t :=
  match list_find (λ kv, originalFilePath kv.2 = filePath)
          (diffDocuments s) with
  | Some (_, (uriToClose, _)) =>
      let '(modifiedContent, s1) := openTextDocument uriToClose s in
      let s2 := closeDiffEditor uriToClose s1 in
      let s3 := if suppressNotification then s2
                else fire (DiffClosed filePath modifiedContent) s2 in
      (Some modifiedContent, s3)
  | None => (None, s)
  end.

End Diff.

(** ** diff-manager.ts, the remaining methods, and extension.ts *)

Module Extension.
Import Diff.

(** [DiffContentProvider.getContent] *)
Definition getContent (u : Uri) (s : t) : option string :=
  map_get u (content s).

(** [DiffManager.onActiveEditorChange]: the context key is set when the
    document of the active editor is the right-hand document of a diff, or
    the file of one. *)
Definition onActiveEditorChange (editor : option TextEditor) (s : t) : t :=
  let isVisible :=
    match editor with
    | Some e =>
        if bool_decide (is_Some (map_get (document_uri e) (diffDocuments s)))
        then true
        else existsb
               (λ kv, bool_decide
                        (originalFilePath kv.2 = fsPath (document_uri e)))
               (diffDocuments s)
    | None => false
    end in
  setContext isVisible s.

(** [uri ?? vscode.window.activeTextEditor?.document.uri] *)
Definition docUri (uri active : option Uri) : option Uri :=
  match uri with
  | Some u => Some u
  | None => active
  end.

(** The commands [gemini.diff.accept] and [gemini.diff.cancel]. *)
Definition accept_command (uri active : option Uri) (s : t) : t :=
  match docUri uri active with
  | Some u => if decide (scheme u = DIFF_SCHEME) then acceptDiff u s else s
  | None => s
  end.

Definition cancel_command (uri active : option Uri) (s : t) : t :=
  match docUri uri active with
  | Some u => if decide (scheme u = DIFF_SCHEME) then cancelDiff u s else s
  | None => s
  end.

(** The listener [activate] registers on
    [vscode.workspace.onDidCloseTextDocument]. The editor emits the event
    when it disposes of the document, so it no longer holds it. *)
Definition onDidCloseTextDocument (u : Uri) (s : t) : t :=
  let s1 :=
    {| content := content s; diffDocuments := diffDocuments s;
       fired := fired s; documents := map_delete u (documents s);
       tabs := tabs s; isVisible := isVisible s |} in
  if decide (scheme u = DIFF_SCHEME) then cancelDiff u s1 else s1.

(** What happens to the diff manager: the two tools of the server, the
    two commands, and what the user does in the editor. *)
Inductive Event :=
  | ToolOpenDiff (filePath newContent rand : string) (exists_ : bool)
  | ToolCloseDiff (filePath : string) (suppressNotification : bool)
  | AcceptCommand (uri active : option Uri)
  | CancelCommand (uri active : option Uri)
  | DocumentClosed (u : Uri)
  | UserEdit (u : Uri) (text : string)
  | ActiveEditorChanged (editor : option TextEditor).

Definition step (s : t) (ev : Event) : t :=
  match ev with
  | ToolOpenDiff filePath newContent rand exists_ =>
      showDiff filePath newContent rand exists_ s
  | ToolCloseDiff filePath suppressNotification =>
      (closeDiff filePath suppressNotification s).2
  | AcceptCommand uri active => accept_command uri active s
  | CancelCommand uri active => cancel_command uri active s
  | DocumentClosed u => onDidCloseTextDocument u s
  | UserEdit u text => userEdit u text s
  | ActiveEditorChanged editor => onActiveEditorChange editor s
  end.

Definition run (evs : list Event) (s : t) : t := foldl step s evs.

(** The identifiers a map holds, in insertion order. *)
Definition keys {V} (m : Map V) : list Uri := fst <$> m.

(** The identifier of an entry has the scheme [showDiff] gives it. *)
Definition well_formed (kv : Uri * DiffInfo) : Prop :=
  scheme kv.1 = DIFF_SCHEME.

(** How an operation can change the cache and the table: not at all, by
    deleting one identifier from both, or by setting one identifier in
    both. *)
Definition tables_step (s s' : t) : Prop :=
  (content s' = content s ∧ diffDocuments s' = diffDocuments s)
  ∨ (∃ u, content s' = map_delete u (content s)
          ∧ diffDocuments s' = map_delete u (diffDocuments s))
  ∨ (∃ u c info, content s' = map_set u c (content s)
                 ∧ diffDocuments s' = map_set u info (diffDocuments s)
                 ∧ well_formed (u, info)).


(** [acceptDiff] and [cancelDiff] are asynchronous and their callers do
    not wait for them: each looks the diff up and, if it finds it, goes on
    after its first [await]; another call can do its own lookup in
    between. These are the two calls from that first [await] on, with the
    record the lookup found. [Diff.acceptDiff] and [Diff.cancelDiff] are
    the calls run to their end with nothing in between, and so are the
    events of [step]. *)
Definition acceptDiff_resume (rightDocUri : Uri) (diffInfo : DiffInfo)
    (s : t) : t :=
  let '(modifiedContent, s1) := openTextDocument rightDocUri s in
  let s2 := closeDiffEditor rightDocUri s1 in
  fire (DiffAccepted (originalFilePath diffInfo) modifiedContent) s2.

Definition cancelDiff_resume (rightDocUri : Uri) (diffInfo : DiffInfo)
    (s : t) : t :=
  let '(modifiedContent, s1) := openTextDocument rightDocUri s in
  let s2 := closeDiffEditor rightDocUri s1 in
  fire (DiffClosed (originalFilePath diffInfo) modifiedContent) s2.


(** What holds of the cache and the table whatever happens. *)
Definition consistent (s : t) : Prop :=
  keys (content s) = keys (diffDocuments s)
  ∧ NoDup (keys (diffDocuments s))
  ∧ Forall well_formed (diffDocuments s).

End Extension.

(** ** ide-server.ts *)

Module Server.

(** *** Requests and responses *)

Inductive Method := GET | POST | OPTIONS | OTHER.

#[global] Instance Method_eq_dec : EqDecision Method.
Proof. solve_decision. Defined.

(** [req.body] as [express.json] parsed it, as far as the server and the
    two registered tools look at it. *)
Inductive Body :=
  | Initialize
  | CallOpenDiff (filePath newContent : string)
  | CallCloseDiff (filePath : string) (suppressNotification : bool)
  | OtherBody.

Definition isInitializeRequest (b : Body) : bool :=
  match b with Initialize => true | _ => false end.

(** A request that reached the middlewares, with the headers they read.
    A header that was not sent is [None]. *)
Record Request := mkRequest {
  method : Method;
  url : string;
  origin : option string;
  host : option string;
  authorization : option string;
  mcp_session_id : option string;
  body : Body
}.

Inductive Payload :=
  | Text (s : string)
  | JsonError (error : string)
  | JsonRpcError (code : Z) (message : string)
  | NoContent
  | FromTransport (s : string).

Record Response := mkResponse {
  status : nat;
  payload : Payload
}.

#[global] Instance Payload_eq_dec : EqDecision Payload.
Proof. solve_decision. Defined.

#[global] Instance Response_eq_dec : EqDecision Response.
Proof. solve_decision. Defined.

(** JavaScript truthiness of a header value: present and not empty. *)
Definition truthy (h : option string) : bool :=
  match h with
  | Some s => negb (bool_decide (s = ""))
  | None => false
  end.

(** [String.prototype.split] with a separator of one character. *)
Fixpoint split (sep : ascii) (s : string) : list string :=
  match s with
  | EmptyString => [EmptyString]
  | String c s' =>
      if decide (c = sep) then EmptyString :: split sep s'
      else match split sep s' with
           | w :: ws => String c w :: ws
           | [] => [String c EmptyString]
           end
  end.


(** *** Transports and the server *)

(** What is sent to a client over a transport. *)
Inductive Message :=
  | Ping
  | ContextUpdate (openFiles : list OFM.File) (isTrusted : bool)
  | DiffNotification (n : Diff.Notification).

(** A [StreamableHTTPServerTransport] with the variables its callbacks
    close over: [missedPings], and [keepAlive], which tells whether the
    interval is still set. [sent] lists what [transport.send] was given. *)
Record Transport := mkTransport {
  sessionId : option string;
  missedPings : nat;
  keepAlive : bool;
  sent : list Message
}.

#[global] Instance Transport_inhabited : Inhabited Transport :=
  populate (mkTransport None 0 false []).

(** The names [Object.prototype] defines. [this.transports] is created by
    an object literal, so reading one of these names from it yields the
    inherited member, which is truthy. *)
Definition Object_prototype : list string :=
  [ "constructor"; "__defineGetter__"; "__defineSetter__"; "hasOwnProperty";
    "__lookupGetter__"; "__lookupSetter__"; "isPrototypeOf";
    "propertyIsEnumerable"; "toString"; "valueOf"; "__proto__";
    "toLocaleString" ].

Inductive Property :=
  | Own (transport : nat)
  | Inherited (name : string).

(** [this.transports[sessionId]]: an own property, else an inherited one,
    else [undefined]. *)
Definition transports_get (m : gmap string nat) (k : string)
    : option Property :=
  match m !! k with
  | Some r => Some (Own r)
  | None => if decide (k ∈ Object_prototype) then Some (Inherited k) else None
  end.

(** The server: [objs] is the store of transports created so far,
    [transports] the own properties of the table of the same name. *)
Record t := mk {
  port : N;
  authToken : string;
  objs : list Transport;
  transports : gmap string nat;
  sessionsWithInitialNotification : gset string;
  diffManager : Diff.t;
  openFilesManager : OFM.t;
  isTrusted : bool
}.

Definition set_objs (o : list Transport) (s : t) : t :=
  {| port := port s; authToken := authToken s; objs := o;
     transports := transports s;
     sessionsWithInitialNotification := sessionsWithInitialNotification s;
     diffManager := diffManager s; openFilesManager := openFilesManager s;
     isTrusted := isTrusted s |}.

Definition set_diffManager (d : Diff.t) (s : t) : t :=
  {| port := port s; authToken := authToken s; objs := objs s;
     transports := transports s;
     sessionsWithInitialNotification := sessionsWithInitialNotification s;
     diffManager := d; openFilesManager := openFilesManager s;
     isTrusted := isTrusted s |}.

Definition set_openFilesManager (m : OFM.t) (s : t) : t :=
  {| port := port s; authToken := authToken s; objs := objs s;
     transports := transports s;
     sessionsWithInitialNotification := sessionsWithInitialNotification s;
     diffManager := diffManager s; openFilesManager := m;
     isTrusted := isTrusted s |}.

(** [start]: the token is [randomUUID()], the port the one the system
    assigned; [active] is the editor that is active at that moment. *)
Definition start (port : N) (token : string) (trusted : bool)
    (active : option TextEditor) (now : nat) : t :=
  {| port := port; authToken := token; objs := []; transports := ∅;
     sessionsWithInitialNotification := ∅; diffManager := Diff.empty;
     openFilesManager := OFM.create active now; isTrusted := trusted |}.

(** [transport.send(m)] *)
Definition send (m : Message) (tr : Transport) : Transport :=
  {| sessionId := sessionId tr; missedPings := missedPings tr;
     keepAlive := keepAlive tr; sent := sent tr ++ [m] |}.

(** [for (const transport of Object.values(this.transports))
    transport.send(m)] *)
Definition broadcast (m : Message) (s : t) : t :=
  set_objs
    (foldr (λ r o, alter (send m) r o) (objs s)
       (map_to_list (transports s)).*2) s.

Definition broadcastIdeContextUpdate (s : t) : t :=
  broadcast
    (ContextUpdate (OFM.files (openFilesManager s)) (isTrusted s)) s.

(** The listener on [diffManager.onDidChange]: what the manager fired
    during a call is sent to every transport. *)
Definition with_diffManager (d : Diff.t) (s : t) : t :=
  let new := drop (length (Diff.fired (diffManager s))) (Diff.fired d) in
  foldl (λ s n, broadcast (DiffNotification n) s) (set_diffManager d s) new.

(** *** Middlewares *)

Inductive Outcome :=
  | Respond (r : Response)
  | Next.

(** The [cors] middleware with the origin callback of the source: a
    request with an [Origin] is refused with [CORSError], which the error
    handler at the end turns into 403. Without one, the package answers a
    preflight ([OPTIONS]) itself and passes every other request on. *)
Definition cors (req : Request) : Outcome :=
  if truthy (origin req)
  then Respond (mkResponse 403 (JsonError "Request denied by CORS policy."))
  else if decide (method req = OPTIONS)
       then Respond (mkResponse 204 NoContent)
       else Next.

Definition allowedHosts (s : t) : list string :=
  [ "localhost:" +:+ pretty (port s); "127.0.0.1:" +:+ pretty (port s) ].

Definition check_host (s : t) (req : Request) : Outcome :=
  let host := default "" (host req) in
  if decide (host ∈ allowedHosts s) then Next
  else Respond (mkResponse 403 (JsonError "Invalid Host header")).

Definition Unauthorized : Response := mkResponse 401 (Text "Unauthorized").

Definition check_auth (s : t) (req : Request) : Outcome :=
  if negb (truthy (authorization req)) then Respond Unauthorized
  else
    let parts := split " " (default "" (authorization req)) in
    match parts with
    | [p0; token] =>
        if decide (p0 = "Bearer") then
          if decide (token = authToken s) then Next
          else Respond Unauthorized
        else Respond Unauthorized
    | _ => Respond Unauthorized
    end.

(** *** The routes *)

(** What the SDK does with a request handed to [transport.handleRequest],
    seen from this file: the callbacks and tools it invokes, in order, and
    how the call ends. [newSessionId] is what [sessionIdGenerator]
    returned; [rand] and [exists_] are read by [showDiff]. *)
Inductive Callback :=
  | OnSessionInitialized (newSessionId : string)
  | OnClose
  | OpenDiff (filePath newContent rand : string) (exists_ : bool)
  | CloseDiff (filePath : string) (suppressNotification : bool).

#[global] Instance Callback_eq_dec : EqDecision Callback.
Proof. solve_decision. Defined.

Inductive Ending :=
  | Sent (r : Response)
  | Threw (headersSent : option Response).

Record SdkRun := mkSdkRun {
  callbacks : list Callback;
  ending : Ending
}.

(** [transport.onclose] as the source sets it. *)
Definition onclose (r : nat) (s : t) : t :=
  let s1 :=
    set_objs
      (alter (λ tr, {| sessionId := sessionId tr;
                       missedPings := missedPings tr;
                       keepAlive := false; sent := sent tr |}) r (objs s))
      s in
  if truthy (sessionId (objs s !!! r)) then
    let sid := default "" (sessionId (objs s !!! r)) in
    {| port := port s1; authToken := authToken s1; objs := objs s1;
       transports := delete sid (transports s1);
       sessionsWithInitialNotification :=
         sessionsWithInitialNotification s1 ∖ {[sid]};
       diffManager := diffManager s1;
       openFilesManager := openFilesManager s1;
       isTrusted := isTrusted s1 |}
  else s1.

Definition callback (r : nat) (s : t) (c : Callback) : t :=
  match c with
  | OnSessionInitialized newSessionId =>
      let s1 :=
        set_objs
          (alter (λ tr, {| sessionId := Some newSessionId;
                           missedPings := missedPings tr;
                           keepAlive := keepAlive tr; sent := sent tr |})
             r (objs s)) s in
      {| port := port s1; authToken := authToken s1; objs := objs s1;
         transports := <[newSessionId := r]> (transports s1);
         sessionsWithInitialNotification :=
           sessionsWithInitialNotification s1;
         diffManager := diffManager s1;
         openFilesManager := openFilesManager s1;
         isTrusted := isTrusted s1 |}
  | OnClose => onclose r s
  | OpenDiff filePath newContent rand exists_ =>
      with_diffManager
        (Diff.showDiff filePath newContent rand exists_ (diffManager s)) s
  | CloseDiff filePath suppressNotification =>
      with_diffManager
        (Diff.closeDiff filePath suppressNotification (diffManager s)).2 s
  end.

Definition InternalError : Response :=
  mkResponse 500 (JsonRpcError (-32603) "Internal server error").

Definition BadRequest : Response :=
  mkResponse 400
    (JsonRpcError (-32000)
       "Bad Request: No valid session ID provided for non-initialize request.").

(** [await transport.handleRequest(req, res, req.body)] inside the [try]
    of the POST route. Calling it on an inherited member of the table
    throws a [TypeError], as that has no [handleRequest]. *)
Definition post_handle (p : Property) (run : SdkRun) (s : t) : Response * t :=
  match p with
  | Own r =>
      let s1 := foldl (callback r) s (callbacks run) in
      match ending run with
      | Sent resp => (resp, s1)
      | Threw (Some resp) => (resp, s1)
      | Threw None => (InternalError, s1)
      end
  | Inherited _ => (InternalError, s)
  end.

Definition post_mcp (req : Request) (run : SdkRun) (s : t) : Response * t :=
  let sessionId := mcp_session_id req in
  match (if truthy sessionId
         then transports_get (transports s) (default "" sessionId)
         else None) with
  | Some transport => post_handle transport run s
  | None =>
      if negb (truthy sessionId) && isInitializeRequest (body req) then
        let r := length (objs s) in
        let s1 := set_objs (objs s ++ [mkTransport None 0 true []]) s in
        post_handle (Own r) run s1
      else (BadRequest, s)
  end.

(** [handleSessionRequest], the GET route. *)
Definition get_mcp (req : Request) (run : SdkRun) (s : t) : Response * t :=
  let sessionId := mcp_session_id req in
  match (if truthy sessionId
         then transports_get (transports s) (default "" sessionId)
         else None) with
  | None => (mkResponse 400 (Text "Invalid or missing session ID"), s)
  | Some (Inherited _) => (mkResponse 400 (Text "Bad Request"), s)
  | Some (Own r) =>
      let sid := default "" sessionId in
      let s1 := foldl (callback r) s (callbacks run) in
      let resp :=
        match ending run with
        | Sent resp => resp
        | Threw (Some resp) => resp
        | Threw None => mkResponse 400 (Text "Bad Request")
        end in
      let s2 :=
        if decide (sid ∈ sessionsWithInitialNotification s1) then s1
        else
          let s' :=
            set_objs
              (alter (send (ContextUpdate
                              (OFM.files (openFilesManager s1))
                              (isTrusted s1))) r (objs s1)) s1 in
          {| port := port s'; authToken := authToken s'; objs := objs s';
             transports := transports s';
             sessionsWithInitialNotification :=
               {[sid]} ∪ sessionsWithInitialNotification s';
             diffManager := diffManager s';
             openFilesManager := openFilesManager s';
             isTrusted := isTrusted s' |} in
      (resp, s2)
  end.

Definition NotFound : Response := mkResponse 404 (Text "Not Found").

Definition route (req : Request) (run : SdkRun) (s : t) : Response * t :=
  if decide (url req = "/mcp") then
    match method req with
    | POST => post_mcp req run s
    | GET => get_mcp req run s
    | _ => (NotFound, s)
    end
  else (NotFound, s).

(** The three middlewares that follow the body parser, in the order
    [start] installs them, then the route: what happens to a request whose
    body [express.json] has parsed. *)
Definition handle_request (req : Request) (run : SdkRun) (s : t)
    : Response * t :=
  match cors req with
  | Respond r => (r, s)
  | Next =>
      match check_host s req with
      | Respond r => (r, s)
      | Next =>
          match check_auth s req with
          | Respond r => (r, s)
          | Next => route req run s
          end
      end
  end.

(** *** The body parser *)

(** [express.json({ limit: '10mb' })] is installed before everything
    else. When it cannot parse the body of a request (the body is not
    JSON, is over the limit, has an encoding it does not support) it
    passes an error on; the error handler installed last hands every error
    that is no [CORSError] on to Express, which answers with the status
    the error carries (400 for a body that is not JSON) and a page for it.
    No other middleware and no route sees the request. *)
Record ParseError := mkParseError {
  err_status : nat;
  err_page : string
}.

(** A request as it arrives: its headers and, once the parser is through,
    its body, or else the error of the parser. *)
Record Arrival := mkArrival {
  request : Request;
  parse_error : option ParseError
}.

Definition receive (a : Arrival) (run : SdkRun) (s : t) : Response * t :=
  match parse_error a with
  | Some e => (mkResponse (err_status e) (Text (err_page e)), s)
  | None => handle_request (request a) run s
  end.

(** *** The keep-alive interval *)

(** One run of the interval callback of transport [r]; [delivered] tells
    whether the promise of [transport.send] resolved. The promise is taken
    to settle before the next run. *)
Definition keepAlive_tick (r : nat) (delivered : bool) (s : t) : t :=
  match objs s !! r with
  | Some tr =>
      if keepAlive tr then
        let tr1 := send Ping tr in
        let tr2 :=
          if delivered then
            {| sessionId := sessionId tr1; missedPings := 0;
               keepAlive := keepAlive tr1; sent := sent tr1 |}
          else
            let missed := S (missedPings tr1) in
            {| sessionId := sessionId tr1; missedPings := missed;
               keepAlive := if decide (3 ≤ missed) then false
                            else keepAlive tr1;
               sent := sent tr1 |} in
        set_objs (<[r := tr2]> (objs s)) s
      else s
  | None => s
  end.

(** *** Everything that happens to the server *)

Inductive Event :=
  | Http (req : Request) (run : SdkRun)
  | KeepAlive (r : nat) (delivered : bool)
  | Closed (r : nat)
  | Editor (ev : OFM.Event)
  | Debounced
  | AcceptDiff (u : Uri)
  | CancelDiff (u : Uri).

Definition step (s : t) (ev : Event) : t :=
  match ev with
  | Http req run => (handle_request req run s).2
  | KeepAlive r delivered => keepAlive_tick r delivered s
  | Closed r => onclose r s
  | Editor ev =>
      set_openFilesManager (OFM.handle (openFilesManager s) ev) s
  | Debounced => broadcastIdeContextUpdate s
  | AcceptDiff u => with_diffManager (Diff.acceptDiff u (diffManager s)) s
  | CancelDiff u => with_diffManager (Diff.cancelDiff u (diffManager s)) s
  end.

Definition run (evs : list Event) (s : t) : t := foldl step s evs.


(** The session id of a request names no session of the server (and no
    inherited member of the table). *)
Definition no_session (s : t) (req : Request) : Prop :=
  match mcp_session_id req with
  | Some sid => transports s !! sid = None ∧ sid ∉ Object_prototype
  | None => True
  end.

(** *** Concrete server states used below *)

(** A server on port 8080 with one session, [sess-1]. *)
Definition server0 : t := start 8080 "0b5c" true None 0.

Definition init_run : SdkRun :=
  mkSdkRun [OnSessionInitialized "sess-1"]
    (Sent (mkResponse 200 (FromTransport "initialized"))).

Definition tool_run : SdkRun :=
  mkSdkRun [OpenDiff "a.txt" "x" "0.5" true]
    (Sent (mkResponse 200 (FromTransport "{}"))).

Definition server1 : t :=
  run [Http (mkRequest POST "/mcp" None (Some "localhost:8080")
               (Some "Bearer 0b5c") None Initialize) init_run] server0.

End Server.

(** ** Notions used to state further properties of open-files-manager.ts *)

Module OFMNotions.
Import OFM.

(** Whether a listener finds a [file] URI to act on in an event. *)
Definition concerns_file (ev : Event) : bool :=
  match ev with
  | DidChangeActiveTextEditor (Some e) _ => isFileUri (document_uri e)
  | DidChangeActiveTextEditor None _ => false
  | DidChangeTextEditorSelection e => isFileUri (document_uri e)
  | DidCloseTextDocument u => isFileUri u
  | DidDeleteFiles us => existsb isFileUri us
  | DidRenameFiles ps => existsb (λ p, isFileUri p.1) ps
  end.

(** Whether an event makes the manager call [rename]: a pair whose old
    and new URI are both [file] URIs. *)
Definition renames_in_place (ev : Event) : bool :=
  match ev with
  | DidRenameFiles ps => existsb (λ p, isFileUri p.1 && isFileUri p.2) ps
  | _ => false
  end.

(** The values [Date.now()] returned in the activations of a sequence of
    events never decrease, starting from [t]. *)
Fixpoint clock_ok (t : nat) (evs : list Event) : bool :=
  match evs with
  | [] => true
  | DidChangeActiveTextEditor (Some e) now :: evs =>
      if isFileUri (document_uri e)
      then bool_decide (t ≤ now) && clock_ok now evs
      else clock_ok t evs
  | _ :: evs => clock_ok t evs
  end.

(** Every timestamp is at least as large as those behind it. *)
Fixpoint newest_first (ts : list nat) : Prop :=
  match ts with
  | [] => True
  | t :: ts => Forall (λ u, u ≤ t) ts ∧ newest_first ts
  end.

Definition timestamps (l : list File) : list nat := timestamp <$> l.

(** The listeners read on the list of records (see [OFM.remove_l] and the
    functions after it). *)
Definition rename_one_l (l : list File) (p : Uri * Uri) : list File :=
  let '(oldUri, newUri) := p in
  if isFileUri oldUri
  then if isFileUri newUri then rename_l (fsPath oldUri) (fsPath newUri) l
       else remove_l (fsPath oldUri) l
  else l.

Definition handle_l (l : list File) (ev : Event) : list File :=
  match ev with
  | DidChangeActiveTextEditor (Some e) now =>
      if isFileUri (document_uri e) then addOrMoveToFront_l e now l else l
  | DidChangeActiveTextEditor None _ => l
  | DidChangeTextEditorSelection e =>
      if isFileUri (document_uri e) then updateActiveContext_l e l else l
  | DidCloseTextDocument u => if isFileUri u then remove_l (fsPath u) l else l
  | DidDeleteFiles us =>
      foldl (λ l u, if isFileUri u then remove_l (fsPath u) l else l) l us
  | DidRenameFiles ps => foldl rename_one_l l ps
  end.

(** No timestamp exceeds [t], and the newest stands first. *)
Definition by_time (t : nat) (l : list File) : Prop :=
  Forall (λ u, u ≤ t) (timestamps l) ∧ newest_first (timestamps l).

End OFMNotions.

(** ** open-files-manager.ts: the debounced change signal *)

Module Debounce.

(** The part of the event loop [fireWithDebounce] uses. [pending] holds
    the timeouts that were set and have neither run nor been cleared, each
    with its handle and the time it is due; [next] is the handle the next
    [setTimeout] returns; [debounceTimer] is the field of the manager;
    [fired] counts the calls of [onDidChangeEmitter.fire()]. Times are in
    milliseconds. *)
Record t := mk {
  pending : list (nat * nat);
  next : nat;
  debounceTimer : option nat;
  fired : nat
}.

Definition initial : t :=
  {| pending := []; next := 0; debounceTimer := None; fired := 0 |}.

Definition DELAY : nat := 50.

Definition clearTimeout (h : nat) (s : t) : t :=
  {| pending := filter (λ p, p.1 ≠ h) (pending s); next := next s;
     debounceTimer := debounceTimer s; fired := fired s |}.

(** [this.debounceTimer = setTimeout(..., 50)] at time [now]. *)
Definition fireWithDebounce (now : nat) (s : t) : t :=
  let s1 :=
    match debounceTimer s with
    | Some h => clearTimeout h s
    | None => s
    end in
  {| pending := pending s1 ++ [(next s1, now + DELAY)];
     next := S (next s1);
     debounceTimer := Some (next s1);
     fired := fired s1 |}.

(** The loop at time [now]: every pending timeout that is due runs its
    callback, which fires the change event. *)
Definition elapse (now : nat) (s : t) : t :=
  {| pending := filter (λ p, now < p.2) (pending s);
     next := next s;
     debounceTimer := debounceTimer s;
     fired := fired s + length (filter (λ p, p.2 ≤ now) (pending s)) |}.

(** A listener of the manager calls [fireWithDebounce] at a time, or time
    passes. *)
Inductive Event :=
  | Mutation (now : nat)
  | Idle (now : nat).

Definition step (s : t) (ev : Event) : t :=
  match ev with
  | Mutation now => fireWithDebounce now (elapse now s)
  | Idle now => elapse now s
  end.

Definition run (evs : list Event) (s : t) : t := foldl step s evs.

(** A burst that follows a mutation at time [t]: each mutation comes less
    than [DELAY] after the one before, and not before it. *)
Fixpoint burst (t : nat) (ts : list nat) : Prop :=
  match ts with
  | [] => True
  | t' :: ts => t ≤ t' < t + DELAY ∧ burst t' ts
  end.

(** The time of the last mutation of a burst. *)
Fixpoint last_time (t : nat) (ts : list nat) : nat :=
  match ts with
  | [] => t
  | t' :: ts => last_time t' ts
  end.

(** The one timeout of the manager is pending, due at [due]. *)
Definition waiting (due : nat) (s : t) : Prop :=
  ∃ h, pending s = [(h, due)] ∧ debounceTimer s = Some h.

End Debounce.

(** ** open-files-manager.ts: the listeners with the change signal *)

Module Listeners.
Import OFM.

(** The manager with its timer. [OFM.handle] tells what a listener does
    to the tracked files; here every listener is as the constructor
    registers it, with its call of [fireWithDebounce] where the source has
    it: inside the test of the URI in the first three listeners, after the
    loop, whatever the URIs, in the listeners for deletions and renames.
    [time] is the time at which the listener runs. *)
Record t := mk {
  manager : OFM.t;
  timer : Debounce.t
}.

Definition set_manager (s : OFM.t) (m : t) : t :=
  {| manager := s; timer := timer m |}.

Definition fireWithDebounce (time : nat) (m : t) : t :=
  {| manager := manager m;
     timer := Debounce.fireWithDebounce time (timer m) |}.

Definition listen (time : nat) (m : t) (ev : Event) : t :=
  match ev with
  | DidChangeActiveTextEditor (Some e) now =>
      if isFileUri (document_uri e)
      then fireWithDebounce time
             (set_manager (addOrMoveToFront e now (manager m)) m)
      else m
  | DidChangeActiveTextEditor None _ => m
  | DidChangeTextEditorSelection e =>
      if isFileUri (document_uri e)
      then fireWithDebounce time
             (set_manager (updateActiveContext e (manager m)) m)
      else m
  | DidCloseTextDocument u =>
      if isFileUri u
      then fireWithDebounce time (set_manager (remove u (manager m)) m)
      else m
  | DidDeleteFiles us =>
      fireWithDebounce time
        (set_manager
           (foldl (λ s u, if isFileUri u then remove u s else s)
              (manager m) us) m)
  | DidRenameFiles ps =>
      fireWithDebounce time
        (set_manager (foldl rename_one (manager m) ps) m)
  end.

(** The change events fired once the delay has passed after [time]. *)
Definition fired_after (time : nat) (m : t) : nat :=
  Debounce.fired (Debounce.elapse (time + Debounce.DELAY) (timer m)).

End Listeners.

(** ** Notions for ide-server.ts *)

Module ServerNotions.
Import Server.

(** The request passed the three middlewares and reaches the routes. *)
Definition admitted (s : t) (req : Request) : Prop :=
  cors req = Next ∧ check_host s req = Next ∧ check_auth s req = Next.


(** The number of session ids under which the table holds transport
    [r]. *)
Definition sessions_on (r : nat) (s : t) : nat :=
  length (filter (λ r', r' = r) (map_to_list (transports s)).*2).

(** A transport after [ms] were sent over it. *)
Definition received (ms : list Message) (tr : Transport) : Transport :=
  {| sessionId := sessionId tr; missedPings := missedPings tr;
     keepAlive := keepAlive tr; sent := sent tr ++ ms |}.

(** Every entry of the table refers to a transport that was created. *)
Definition indexed (s : t) : Prop :=
  ∀ sid r, transports s !! sid = Some r → r < length (objs s).

(** The session id [sid] is sent with the request, is not empty and names
    no inherited member of the table. *)
Definition names_session (req : Request) (sid : string) : Prop :=
  mcp_session_id req = Some sid ∧ sid ≠ "" ∧ sid ∉ Object_prototype.

End ServerNotions.

(** ** Facts about open-files-manager.ts *)

Module OFMFacts.
Import OFM.

Lemma list_find_read (P : File → Prop) `{!∀ f, Decision (P f)} h rs :
  list_find P (read h rs)
  = prod_map id (λ r, h !!! r) <$> list_find (λ r, P (h !!! r)) rs.
Proof. unfold read. by rewrite list_find_fmap. Qed.

Lemma findIndex_read (P : File → Prop) `{!∀ f, Decision (P f)} h rs :
  findIndex h P rs = fst <$> list_find P (read h rs).
Proof.
  unfold findIndex. rewrite list_find_read.
  by destruct (list_find _ rs) as [[i r]|].
Qed.

Lemma find_ref_read (P : File → Prop) `{!∀ f, Decision (P f)} h rs :
  match find_ref h P rs with
  | Some r => ∃ i, rs !! i = Some r ∧ list_find P (read h rs) = Some (i, h !!! r)
  | None => list_find P (read h rs) = None
  end.
Proof.
  unfold find_ref. rewrite list_find_read.
  destruct (list_find _ rs) as [[i r]|] eqn:E; simpl; [|done].
  exists i. split; [|done]. by apply list_find_Some in E as [? _].
Qed.

Lemma read_alter f h rs i r :
  NoDup rs → r < length h → rs !! i = Some r →
  read (alter f r h) rs = alter f i (read h rs).
Proof.
  intros Hnd Hr Hi. apply list_eq. intros j. unfold read.
  rewrite list_lookup_fmap.
  destruct (decide (j = i)) as [->|Hne].
  - rewrite list_lookup_alter_eq, list_lookup_fmap, Hi. simpl.
    by rewrite list_lookup_total_alter_eq.
  - rewrite list_lookup_alter_ne, list_lookup_fmap by done.
    destruct (rs !! j) as [r'|] eqn:Hj; simpl; [|done].
    rewrite list_lookup_total_alter_ne; [done|].
    intros ->. apply Hne. by eapply NoDup_lookup.
Qed.

Lemma read_app h x rs :
  Forall (λ r, r < length h) rs → read (h ++ [x]) rs = read h rs.
Proof.
  intros Hrs. unfold read. apply Forall_fmap_ext_1.
  eapply Forall_impl; [done|]. intros r Hr. simpl.
  by rewrite lookup_total_app_l.
Qed.

(** *** Every operation acts on [files] as its list-level reading *)

Lemma wf_empty : wf empty.
Proof. split; [apply NoDup_nil_2 | apply Forall_nil_2]. Qed.

Lemma sim_remove u s :
  wf s → wf (remove u s) ∧ files (remove u s) = remove_l (fsPath u) (files s).
Proof.
  intros [Hnd Hall]. unfold remove, remove_l, files.
  rewrite findIndex_read.
  destruct (list_find _ (read _ _)) as [[i f]|]; simpl; [|done].
  split.
  - split; simpl; [|by apply Forall_delete].
    eapply sublist_NoDup; [done|]. apply sublist_delete.
  - unfold read. by rewrite list_fmap_delete.
Qed.

Lemma sim_rename u v s :
  wf s →
  wf (rename u v s)
  ∧ files (rename u v s) = rename_l (fsPath u) (fsPath v) (files s).
Proof.
  intros [Hnd Hall]. unfold rename, rename_l, files.
  rewrite (list_find_read (λ f, path f = fsPath u)).
  destruct (list_find _ (openFiles s)) as [[i r]|] eqn:E; simpl; [|done].
  apply list_find_Some in E as (Hi & _ & _).
  assert (r < length (objects s)) by exact (Forall_lookup_1 _ _ _ _ Hall Hi).
  split.
  - split; simpl; [done|]. by rewrite length_alter.
  - by apply read_alter.
Qed.

Lemma sim_updateActiveContext e s :
  wf s →
  wf (updateActiveContext e s)
  ∧ files (updateActiveContext e s) = updateActiveContext_l e (files s).
Proof.
  intros [Hnd Hall]. unfold updateActiveContext, updateActiveContext_l, files.
  pose proof (find_ref_read (λ f, path f = fsPath (document_uri e))
                (objects s) (openFiles s)) as Hf.
  destruct (find_ref _ _ _) as [r|]; [|by rewrite Hf].
  destruct Hf as (i & Hi & ->).
  destruct (isActive (objects s !!! r)); [|done].
  assert (r < length (objects s)) by exact (Forall_lookup_1 _ _ _ _ Hall Hi).
  split.
  - split; simpl; [done|]. by rewrite length_alter.
  - by apply read_alter.
Qed.

Lemma wf_pop s :
  wf s → wf {| objects := objects s; openFiles := pop (openFiles s) |}.
Proof.
  intros [Hnd Hall]. split; simpl.
  - eapply sublist_NoDup; [done|]. apply sublist_take.
  - by apply Forall_take.
Qed.

Lemma sim_addOrMoveToFront e now s :
  wf s →
  wf (addOrMoveToFront e now s)
  ∧ files (addOrMoveToFront e now s) = addOrMoveToFront_l e now (files s).
Proof.
  intros [Hnd Hall]. unfold addOrMoveToFront, addOrMoveToFront_l.
  set (p := fsPath (document_uri e)).
  set (h1 := match find_ref _ _ _ with Some _ => _ | None => _ end).
  assert (length h1 = length (objects s)) as Hlen.
  { subst h1. destruct (find_ref _ _ _); [apply length_alter | done]. }
  assert (read h1 (openFiles s) = deactivate_l (files s)) as Hh1.
  { subst h1. unfold deactivate_l, files.
    pose proof (find_ref_read (λ f, isActive f = true)
                  (objects s) (openFiles s)) as Hf.
    destruct (find_ref _ _ _) as [r|]; [|by rewrite Hf].
    destruct Hf as (i & Hi & ->). apply read_alter; [done| |done].
    exact (Forall_lookup_1 _ _ _ _ Hall Hi). }
  set (rs1 := match findIndex _ _ _ with Some _ => _ | None => _ end).
  assert (NoDup rs1 ∧ Forall (λ r, r < length h1) rs1
          ∧ read h1 rs1 = remove_l p (deactivate_l (files s)))
    as (Hnd1 & Hall1 & Hrs1).
  { subst rs1. rewrite findIndex_read, Hh1. unfold remove_l.
    rewrite Hlen.
    destruct (list_find _ (deactivate_l _)) as [[i f]|]; simpl.
    - split_and!; [|by apply Forall_delete|].
      + eapply sublist_NoDup; [done|]. apply sublist_delete.
      + unfold read in *. by rewrite list_fmap_delete, Hh1.
    - done. }
  set (new := mkFile p now true None None).
  set (s2 := {| objects := h1 ++ [new];
                openFiles := length h1 :: rs1 |}).
  assert (wf s2) as Hwf2.
  { split; simpl.
    - apply NoDup_cons. split; [|done].
      intros Hin. eapply Forall_forall in Hall1; [|done]. lia.
    - rewrite length_app. simpl. apply Forall_cons. split; [lia|].
      eapply Forall_impl; [done|]. simpl. lia. }
  assert (files s2 = new :: remove_l p (deactivate_l (files s))) as Hf2.
  { unfold files, s2. simpl objects. simpl openFiles.
    change (read (h1 ++ [new]) (length h1 :: rs1))
      with ((h1 ++ [new]) !!! length h1 :: read (h1 ++ [new]) rs1).
    rewrite read_app, Hrs1 by done. f_equal.
    by rewrite lookup_total_app_r, Nat.sub_diag by lia. }
  set (s3 := {| objects := h1 ++ [new];
                openFiles := if decide (MAX_FILES < length (length h1 :: rs1))
                             then pop (length h1 :: rs1)
                             else length h1 :: rs1 |}).
  assert (wf s3 ∧ files s3 = cap (new :: remove_l p (deactivate_l (files s))))
    as [Hwf3 Hf3].
  { unfold s3, cap. rewrite <- Hf2.
    replace (length (files s2)) with (length (length h1 :: rs1))
      by (unfold files, read, s2; simpl; by rewrite length_fmap).
    case_decide; [|done]. split; [apply (wf_pop s2 Hwf2)|].
    unfold files, pop, read, s2. simpl objects. simpl openFiles.
    by rewrite fmap_take, !length_fmap. }
  destruct (sim_updateActiveContext e s3 Hwf3) as [Hwf4 Hf4].
  split; [done|]. by rewrite Hf4, Hf3.
Qed.
(** *** Paths of the tracked files *)

Lemma paths_alter g i l :
  (∀ f, path (g f) = path f) → paths (alter g i l) = paths l.
Proof.
  intros Hg. unfold paths.
  rewrite <- (list_alter_id id (path <$> l) i) by done.
  apply list_fmap_alter, Forall_forall. intros f _. apply Hg.
Qed.

Lemma paths_deactivate_l l : paths (deactivate_l l) = paths l.
Proof.
  unfold deactivate_l. destruct (list_find _ l) as [[i f]|]; [|done].
  by apply paths_alter.
Qed.

Lemma paths_updateActiveContext_l e l :
  paths (updateActiveContext_l e l) = paths l.
Proof.
  unfold updateActiveContext_l. destruct (list_find _ l) as [[i f]|]; [|done].
  destruct (isActive f); [|done]. by apply paths_alter.
Qed.

Lemma filter_ne_notin (p : string) (l : list string) :
  p ∉ l → filter (λ q, q ≠ p) l = l.
Proof.
  induction l as [|q l IH]; [done|]. intros [? ?]%not_elem_of_cons.
  rewrite filter_cons_True by done. f_equal. by apply IH.
Qed.

(** [remove_l] deletes the first record with the path; where paths are
    distinct that is every such record. *)
Lemma remove_l_cons p f l :
  remove_l p (f :: l) = if decide (path f = p) then l else f :: remove_l p l.
Proof.
  unfold remove_l. simpl. case_decide; [done|].
  by destruct (list_find _ l) as [[i g]|].
Qed.

Lemma paths_remove_l p l :
  NoDup (paths l) → paths (remove_l p l) = filter (λ q, q ≠ p) (paths l).
Proof.
  induction l as [|f l IH]; [done|]. intros [Hf Hnd]%NoDup_cons.
  rewrite remove_l_cons. simpl. rewrite filter_cons.
  case_decide as Hp.
  - rewrite decide_False by (intros ?; congruence). subst p.
    symmetry. by apply filter_ne_notin.
  - rewrite decide_True by done. simpl. f_equal. by apply IH.
Qed.

Lemma paths_cap l :
  length l ≤ S MAX_FILES → paths (cap l) = take MAX_FILES (paths l).
Proof.
  intros Hl. unfold cap, pop, paths. case_decide.
  - rewrite fmap_take. f_equal. unfold MAX_FILES in *. lia.
  - rewrite take_ge; [done|]. rewrite length_fmap. lia.
Qed.

Lemma length_remove_l p l : length (remove_l p l) ≤ length l.
Proof.
  unfold remove_l. destruct (list_find _ l) as [[i f]|] eqn:E; [|done].
  apply list_find_Some in E as [Hi _]. rewrite length_delete; [lia|done].
Qed.

Lemma paths_addOrMoveToFront_l e now l :
  NoDup (paths l) → length l ≤ MAX_FILES →
  paths (addOrMoveToFront_l e now l)
  = take MAX_FILES
      (fsPath (document_uri e)
         :: filter (λ q, q ≠ fsPath (document_uri e)) (paths l)).
Proof.
  intros Hnd Hlen. unfold addOrMoveToFront_l.
  rewrite paths_updateActiveContext_l, paths_cap.
  - change (paths (?f :: ?l)) with (path f :: paths l). simpl path.
    by rewrite paths_remove_l, paths_deactivate_l
      by (by rewrite paths_deactivate_l).
  - simpl. pose proof (length_remove_l (fsPath (document_uri e))
                         (deactivate_l l)) as Hr.
    assert (length (deactivate_l l) = length l) as Hd.
    { unfold deactivate_l. destruct (list_find _ l) as [[i f]|]; [|done].
      apply length_alter. }
    lia.
Qed.

(** *** Most-recently-used order *)

Lemma remove_dups_snoc (p : string) (l : list string) :
  remove_dups (l ++ [p]) = filter (λ q, q ≠ p) (remove_dups l) ++ [p].
Proof.
  induction l as [|x l IH]; [done|]. simpl.
  destruct (decide_rel elem_of x (l ++ [p])) as [Hin|Hin];
    destruct (decide_rel elem_of x l) as [Hin'|Hin']; rewrite IH.
  - done.
  - apply elem_of_app in Hin as [Hin|Hin%list_elem_of_singleton]; [done|].
    subst x. by rewrite filter_cons_False by (intros Hq; by apply Hq).
  - exfalso. apply Hin, elem_of_app. by left.
  - rewrite filter_cons_True; [done|]. intros ->.
    apply Hin, elem_of_app. right. by apply list_elem_of_singleton.
Qed.

Lemma mru_snoc p l : mru (l ++ [p]) = p :: filter (λ q, q ≠ p) (mru l).
Proof.
  unfold mru. by rewrite remove_dups_snoc, reverse_snoc, filter_reverse.
Qed.

Lemma NoDup_mru l : NoDup (mru l).
Proof. unfold mru. rewrite reverse_Permutation. apply NoDup_remove_dups. Qed.

Lemma take_filter_take (p : string) n (l : list string) :
  NoDup l →
  take n (filter (λ q, q ≠ p) (take (S n) l)) = take n (filter (λ q, q ≠ p) l).
Proof.
  revert n. induction l as [|x l IH]; intros n Hnd; [done|].
  apply NoDup_cons in Hnd as [Hx Hnd]. simpl take at 2.
  destruct (decide (x = p)) as [->|Hne].
  - rewrite !filter_cons_False by (intros Hq; by apply Hq).
    rewrite (filter_ne_notin p l) by done.
    rewrite filter_ne_notin.
    + by rewrite take_take, Nat.min_id.
    + intros (i & Hi & _)%elem_of_take. apply Hx.
      by eapply list_elem_of_lookup_2.
  - rewrite !filter_cons_True by done.
    destruct n as [|n]; [done|]. simpl. f_equal. by apply IH.
Qed.

Lemma activated_snoc acts a :
  activated (acts ++ [a])
  = activated acts
    ++ match a.1 with
       | Some e => if isFileUri (document_uri e)
                   then [fsPath (document_uri e)] else []
       | None => []
       end.
Proof.
  unfold activated. rewrite omap_app. f_equal. simpl.
  destruct a.1 as [e|]; [|done]. by destruct (isFileUri _).
Qed.

Lemma run_snoc evs ev s : run (evs ++ [ev]) s = handle (run evs s) ev.
Proof. unfold run. by rewrite foldl_app. Qed.

Lemma run_activations acts :
  let s := run (activation <$> acts) empty in
  wf s ∧ paths (files s) = take MAX_FILES (mru (activated acts)).
Proof.
  induction acts as [|a acts IH] using rev_ind; [by split; [apply wf_empty|]|].
  cbv zeta in *. destruct IH as [Hwf IH].
  rewrite fmap_app. change (activation <$> [a]) with [activation a].
  rewrite run_snoc, activated_snoc.
  set (s := run (activation <$> acts) empty) in *.
  unfold activation. destruct a as [[e|] now]; simpl;
    [|by rewrite app_nil_r].
  destruct (isFileUri (document_uri e)); [|by rewrite app_nil_r].
  destruct (sim_addOrMoveToFront e now s Hwf) as [Hwf' ->].
  split; [done|].
  assert (NoDup (paths (files s))) as Hnd.
  { rewrite IH. eapply sublist_NoDup; [apply NoDup_mru | apply sublist_take]. }
  assert (length (files s) ≤ MAX_FILES) as Hlen.
  { rewrite <- (length_fmap path). fold (paths (files s)).
    rewrite IH, length_take. lia. }
  rewrite paths_addOrMoveToFront_l, mru_snoc, IH by done.
  unfold MAX_FILES. simpl take at 1. simpl take at 3. f_equal.
  apply take_filter_take, NoDup_mru.
Qed.

Example mru_example : mru ["/a"; "/b"; "/a"; "/c"] = ["/c"; "/a"; "/b"].
Proof. reflexivity. Qed.

(** C3. For every sequence of active-editor changes applied to the empty
    manager, the tracked list has at most [MAX_FILES] = 10 entries, its
    paths are pairwise distinct, and they are the ten most recently
    activated file paths, most recent first (so activating a tracked file
    again moves it to the front). When the list is full and a file that is
    not tracked is activated, the new path is put in front of the old list
    without its last entry. *)
Theorem C3_tracked_files_mru_capped (acts : list (option TextEditor * nat)) :
  let s := run (activation <$> acts) empty in
  length (files s) ≤ MAX_FILES
  ∧ NoDup (paths (files s))
  ∧ paths (files s) = take MAX_FILES (mru (activated acts))
  ∧ ∀ e now,
      isFileUri (document_uri e) = true →
      length (files s) = MAX_FILES →
      fsPath (document_uri e) ∉ paths (files s) →
      paths (files (handle s (DidChangeActiveTextEditor (Some e) now)))
      = fsPath (document_uri e) :: take (MAX_FILES - 1) (paths (files s)).
Proof.
  intros s. destruct (run_activations acts) as [Hwf Hp]. fold s in Hwf, Hp.
  assert (NoDup (paths (files s))) as Hnd.
  { rewrite Hp. eapply sublist_NoDup; [apply NoDup_mru | apply sublist_take]. }
  assert (length (files s) ≤ MAX_FILES) as Hlen.
  { rewrite <- (length_fmap path). fold (paths (files s)).
    rewrite Hp, length_take. lia. }
  split_and!; [done..|].
  intros e now He Hfull Hnew. simpl. rewrite He.
  destruct (sim_addOrMoveToFront e now s Hwf) as [_ ->].
  rewrite paths_addOrMoveToFront_l by done.
  by rewrite filter_ne_notin by done.
Qed.

(** The constructor does what the first change of the active editor
    does. *)
Lemma create_run active now :
  create active now = run [DidChangeActiveTextEditor active now] empty.
Proof. done. Qed.

(** *** Invariants of the list are invariants of the manager *)

Section invariant.
Variable I : list File → Prop.
Hypothesis I_remove : ∀ p l, I l → I (remove_l p l).
Hypothesis I_rename : ∀ a b l, I l → I (rename_l a b l).
Hypothesis I_update : ∀ e l, I l → I (updateActiveContext_l e l).
Hypothesis I_add : ∀ e now l, I l → I (addOrMoveToFront_l e now l).

Let good (s : t) : Prop := wf s ∧ I (files s).

Lemma good_remove u s : good s → good (remove u s).
Proof.
  intros [Hwf HI]. destruct (sim_remove u s Hwf) as [? Hf].
  split; [done|]. rewrite Hf. by apply I_remove.
Qed.

Lemma good_rename u v s : good s → good (rename u v s).
Proof.
  intros [Hwf HI]. destruct (sim_rename u v s Hwf) as [? Hf].
  split; [done|]. rewrite Hf. by apply I_rename.
Qed.

Lemma good_handle s ev : good s → good (handle s ev).
Proof.
  intros Hs. destruct ev as [[e|] now|e|u|us|ps]; simpl.
  - destruct (isFileUri _); [|done]. destruct Hs as [Hwf HI].
    destruct (sim_addOrMoveToFront e now s Hwf) as [? Hf].
    split; [done|]. rewrite Hf. by apply I_add.
  - done.
  - destruct (isFileUri _); [|done]. destruct Hs as [Hwf HI].
    destruct (sim_updateActiveContext e s Hwf) as [? Hf].
    split; [done|]. rewrite Hf. by apply I_update.
  - destruct (isFileUri _); [|done]. by apply good_remove.
  - revert s Hs. induction us as [|u us IH]; intros s Hs; [done|].
    simpl. apply IH. destruct (isFileUri _); [|done]. by apply good_remove.
  - revert s Hs. induction ps as [|[u v] ps IH]; intros s Hs; [done|].
    simpl. apply IH. destruct (isFileUri u); [|done].
    destruct (isFileUri v); [by apply good_rename | by apply good_remove].
Qed.

Lemma good_run evs s : good s → good (run evs s).
Proof.
  revert s. induction evs as [|ev evs IH]; intros s Hs; [done|].
  apply IH. by apply good_handle.
Qed.

Lemma reachable_invariant evs : I [] → wf (run evs empty) ∧ I (files (run evs empty)).
Proof. intros H0. apply good_run. split; [apply wf_empty | done]. Qed.
End invariant.

Lemma wf_run evs : wf (run evs empty).
Proof. by apply (reachable_invariant (λ _, True)). Qed.

(** *** At most one active entry, at the front *)

Lemma clean_not_active f : clean f → isActive f ≠ true.
Proof. intros (Hf & _ & _). by rewrite Hf. Qed.

Lemma front_only_clean l : Forall clean l → front_only l.
Proof. destruct 1 as [|f l Hf Hl]; [done|]. split; [by right | done]. Qed.

Lemma front_only_delete i l : front_only l → front_only (delete i l).
Proof.
  destruct l as [|f tl]; [done|]. intros [Hf Htl].
  destruct i as [|i]; simpl; [by apply front_only_clean|].
  split; [done | by apply Forall_delete].
Qed.

Lemma front_only_remove_l p l : front_only l → front_only (remove_l p l).
Proof.
  intros Hl. unfold remove_l. destruct (list_find _ l) as [[i f]|]; [|done].
  by apply front_only_delete.
Qed.

Lemma front_only_rename_l a b l : front_only l → front_only (rename_l a b l).
Proof.
  intros Hl. unfold rename_l. destruct (list_find _ l) as [[i f]|]; [|done].
  destruct l as [|g tl]; [done|]. destruct Hl as [Hg Htl].
  destruct i as [|i]; simpl; (split; [done|]); [done|].
  apply Forall_alter; [done|]. by intros x _ ?.
Qed.

(** Where [find] meets an active record in such a list, it is the front
    entry. *)
Lemma front_only_find_active (P : File → Prop) `{!∀ f, Decision (P f)}
    l i f :
  front_only l → list_find P l = Some (i, f) → isActive f = true →
  i = 0 ∧ ∃ tl, l = f :: tl ∧ Forall clean tl.
Proof.
  intros Hl (Hi & _ & _)%list_find_Some Hact.
  destruct l as [|g tl]; [done|]. destruct Hl as [_ Htl].
  destruct i as [|i]; simpl in Hi.
  - injection Hi as ->. eauto.
  - exfalso. eapply clean_not_active; [|done].
    by eapply Forall_lookup_1.
Qed.

Lemma front_only_updateActiveContext_l e l :
  front_only l → front_only (updateActiveContext_l e l).
Proof.
  intros Hl. unfold updateActiveContext_l.
  destruct (list_find _ l) as [[i f]|] eqn:E; [|done].
  destruct (isActive f) eqn:Hact; [|done].
  destruct (front_only_find_active _ l i f Hl E Hact) as (-> & tl & -> & Htl).
  simpl. split; [by left | done].
Qed.

Lemma deactivate_clean f : clean (deactivate f).
Proof. done. Qed.

Lemma deactivate_l_clean l : front_only l → Forall clean (deactivate_l l).
Proof.
  intros Hl. unfold deactivate_l.
  destruct (list_find _ l) as [[i f]|] eqn:E.
  - pose proof E as (_ & Hact & _)%list_find_Some.
    destruct (front_only_find_active _ l i f Hl E Hact) as (-> & tl & -> & Htl).
    simpl. apply Forall_cons. split; [apply deactivate_clean | done].
  - apply list_find_None in E. destruct l as [|g tl]; [done|].
    destruct Hl as [[Hg|Hg] Htl]; apply Forall_cons; split; try done.
    by apply Forall_cons in E as [? _].
Qed.

Lemma remove_l_clean p l : Forall clean l → Forall clean (remove_l p l).
Proof.
  intros Hl. unfold remove_l. destruct (list_find _ l) as [[i f]|]; [|done].
  by apply Forall_delete.
Qed.

Lemma front_only_take n l : front_only l → front_only (take n l).
Proof.
  destruct l as [|f tl]; [by destruct n|]. intros [Hf Htl].
  destruct n as [|n]; [done|]. simpl. split; [done | by apply Forall_take].
Qed.

Lemma front_only_cap l : front_only l → front_only (cap l).
Proof.
  intros Hl. unfold cap, pop. case_decide; [|done]. by apply front_only_take.
Qed.

Lemma front_only_addOrMoveToFront_l e now l :
  front_only l → front_only (addOrMoveToFront_l e now l).
Proof.
  intros Hl. unfold addOrMoveToFront_l.
  apply front_only_updateActiveContext_l, front_only_cap.
  split; [by left|]. by apply remove_l_clean, deactivate_l_clean.
Qed.

Lemma front_only_run evs : front_only (files (run evs empty)).
Proof.
  apply (reachable_invariant front_only);
    auto using front_only_remove_l, front_only_rename_l,
      front_only_updateActiveContext_l, front_only_addOrMoveToFront_l.
  done.
Qed.

Lemma front_only_active_count l : front_only l → active_count l ≤ 1.
Proof.
  destruct l as [|f tl]; [by (unfold active_count; simpl; lia)|].
  intros [_ Htl]. unfold active_count. rewrite filter_cons.
  assert (filter (λ f, isActive f = true) tl = []) as ->.
  { induction Htl as [|g tl Hg _ IH]; [done|].
    rewrite filter_cons_False; [done | by apply clean_not_active]. }
  case_decide; simpl; lia.
Qed.

(** *** What an activation does to the list *)

Lemma cap_cons (f : File) (l : list File) :
  cap (f :: l)
  = f :: (if decide (MAX_FILES < S (length l))
          then take (length l - 1) l else l).
Proof.
  unfold cap, pop. simpl length. case_decide as Hlen; [|done].
  destruct l as [|g l]; [unfold MAX_FILES in Hlen; simpl in Hlen; lia|].
  simpl. by rewrite !Nat.sub_0_r.
Qed.

Lemma addOrMoveToFront_l_front e now l :
  let p := fsPath (document_uri e) in
  let rest := remove_l p (deactivate_l l) in
  addOrMoveToFront_l e now l
  = mkFile p now true (cursor_of (selection_active e))
      (selected_of (selection_text e))
    :: (if decide (MAX_FILES < S (length rest))
        then take (length rest - 1) rest else rest).
Proof.
  intros p rest. unfold addOrMoveToFront_l. fold p. fold rest.
  rewrite cap_cons. unfold updateActiveContext_l. simpl.
  fold p. by rewrite decide_True by done.
Qed.

Lemma addOrMoveToFront_l_previous e now f tl :
  isActive f = true → path f ≠ fsPath (document_uri e) →
  addOrMoveToFront_l e now (f :: tl) !! 1 = Some (deactivate f).
Proof.
  intros Hact Hp. rewrite addOrMoveToFront_l_front. simpl lookup.
  assert (deactivate_l (f :: tl) = deactivate f :: tl) as ->.
  { unfold deactivate_l. simpl. by rewrite decide_True by done. }
  rewrite remove_l_cons.
  rewrite (decide_False (P := path (deactivate f) = _)) by exact Hp.
  case_decide as Hlen; [|done]. simpl in Hlen. simpl length.
  rewrite lookup_take_lt; [done|]. unfold MAX_FILES in Hlen. lia.
Qed.

Lemma C3_eleventh_file_witness :
  paths (files (run (activation <$> ten_files) empty))
  = ["/f9"; "/f8"; "/f7"; "/f6"; "/f5"; "/f4"; "/f3"; "/f2"; "/f1"; "/f0"]
  ∧ paths (files (run (activation <$> ten_files
                                        ++ [(Some (editor "/g" 0 0 ""), 10)])
                    empty))
    = ["/g"; "/f9"; "/f8"; "/f7"; "/f6"; "/f5"; "/f4"; "/f3"; "/f2"; "/f1"].
Proof.
  destruct (C3_tracked_files_mru_capped ten_files) as (_ & _ & Hmru & Hdrop).
  split; [exact Hmru|].
  exact (Hdrop (editor "/g" 0 0 "") 10 eq_refl eq_refl
           ltac:(by_compute)).
Defined.

(** C4. After any sequence of events at most one tracked file is active.
    When a file editor becomes active in such a state, the first step
    clears the active flag, the cursor and the selected text of the entry
    that was active, so that no entry is active and none carries a cursor
    or a selection; only then is the old entry for the path removed and the
    new entry put at the front. The resulting list starts with the new
    active entry, every entry behind it is inactive without cursor and
    selection, and the entry that was active before (when it is for another
    path) now stands second, cleared. *)
Theorem C4_single_active_file (evs : list Event) :
  let s := run evs empty in
  active_count (files s) ≤ 1
  ∧ ∀ e now,
      isFileUri (document_uri e) = true →
      let p := fsPath (document_uri e) in
      let s' := handle s (DidChangeActiveTextEditor (Some e) now) in
      Forall clean (deactivate_l (files s))
      ∧ files s'
        = updateActiveContext_l e
            (cap (mkFile p now true None None
                    :: remove_l p (deactivate_l (files s))))
      ∧ (∃ tl, files s'
               = mkFile p now true (cursor_of (selection_active e))
                   (selected_of (selection_text e)) :: tl
               ∧ Forall clean tl)
      ∧ active_count (files s') = 1
      ∧ ∀ f, head (files s) = Some f → isActive f = true → path f ≠ p →
             files s' !! 1 = Some (deactivate f).
Proof.
  intros s. pose proof (front_only_run evs) as Hfront. fold s in Hfront.
  pose proof (wf_run evs) as Hwf. fold s in Hwf.
  split; [by apply front_only_active_count|].
  intros e now He p s'. subst s'. simpl. rewrite He.
  destruct (sim_addOrMoveToFront e now s Hwf) as [_ ->].
  pose proof (deactivate_l_clean _ Hfront) as Hclean.
  assert (Forall clean
            (if decide (MAX_FILES < S (length (remove_l p (deactivate_l (files s)))))
             then take (length (remove_l p (deactivate_l (files s))) - 1)
                    (remove_l p (deactivate_l (files s)))
             else remove_l p (deactivate_l (files s)))) as Htl.
  { case_decide; [apply Forall_take|]; by apply remove_l_clean. }
  split_and!; [done|done| | |].
  - rewrite addOrMoveToFront_l_front. eauto.
  - rewrite addOrMoveToFront_l_front. fold p. unfold active_count.
    rewrite filter_cons_True by done. simpl. f_equal.
    induction Htl as [|g tl Hg _ IH]; [done|].
    rewrite filter_cons_False; [done | by apply clean_not_active].
  - intros f Hhd Hact Hp. destruct (files s) as [|g tl]; [done|].
    injection Hhd as ->. by apply addOrMoveToFront_l_previous.
Qed.

Lemma C4_previous_file_cleared_witness :
  files (run [DidChangeActiveTextEditor (Some (editor "/a" 2 5 "foo")) 1;
              DidChangeActiveTextEditor (Some (editor "/b" 0 0 "")) 2]
           empty) !! 1
  = Some {| path := "/a"; timestamp := 1; isActive := false;
            cursor := None; selectedText := None |}.
Proof.
  destruct (C4_single_active_file
              [DidChangeActiveTextEditor (Some (editor "/a" 2 5 "foo")) 1])
    as [_ Hact].
  destruct (Hact (editor "/b" 0 0 "") 2 eq_refl) as (_ & _ & _ & _ & Hprev).
  exact (Hprev {| path := "/a"; timestamp := 1; isActive := true;
                  cursor := Some {| line := 3; character := 5 |};
                  selectedText := Some "foo" |}
           eq_refl eq_refl ltac:(by_compute)).
Defined.

(** *** Properties of every record of the store *)

Section store_invariant.
Variable P : File → Prop.
Hypothesis P_deactivate : ∀ f, P f → P (deactivate f).
Hypothesis P_set_path : ∀ p f, P f → P (set_path p f).
Hypothesis P_set_context : ∀ e f, P f → P (set_context e f).
Hypothesis P_new : ∀ p now, P (mkFile p now true None None).

Let ok (s : t) : Prop := Forall P (objects s).

Lemma ok_updateActiveContext e s : ok s → ok (updateActiveContext e s).
Proof.
  intros Hs. unfold updateActiveContext.
  destruct (find_ref _ _ _) as [r|]; [|done].
  destruct (isActive _); [|done].
  apply Forall_alter; [done|]. intros f _. apply P_set_context.
Qed.

Lemma ok_remove u s : ok s → ok (remove u s).
Proof. intros Hs. unfold remove. by destruct (findIndex _ _ _). Qed.

Lemma ok_rename u v s : ok s → ok (rename u v s).
Proof.
  intros Hs. unfold rename. destruct (list_find _ _) as [[i r]|]; [|done].
  apply Forall_alter; [done|]. intros f _. apply P_set_path.
Qed.

Lemma ok_addOrMoveToFront e now s : ok s → ok (addOrMoveToFront e now s).
Proof.
  intros Hs. unfold addOrMoveToFront. apply ok_updateActiveContext.
  unfold ok. simpl. apply Forall_app. split; [|by apply Forall_singleton].
  destruct (find_ref _ _ _) as [r|]; [|done].
  apply Forall_alter; [done|]. intros f _. apply P_deactivate.
Qed.

Lemma ok_handle s ev : ok s → ok (handle s ev).
Proof.
  intros Hs. destruct ev as [[e|] now|e|u|us|ps]; simpl.
  - destruct (isFileUri _); [by apply ok_addOrMoveToFront | done].
  - done.
  - destruct (isFileUri _); [by apply ok_updateActiveContext | done].
  - destruct (isFileUri _); [by apply ok_remove | done].
  - revert s Hs. induction us as [|u us IH]; intros s Hs; [done|].
    simpl. apply IH. destruct (isFileUri _); [by apply ok_remove | done].
  - revert s Hs. induction ps as [|[u v] ps IH]; intros s Hs; [done|].
    simpl. apply IH. destruct (isFileUri u); [|done].
    destruct (isFileUri v); [by apply ok_rename | by apply ok_remove].
Qed.

Lemma store_invariant evs : Forall P (objects (run evs empty)).
Proof.
  assert (∀ s, ok s → ok (run evs s)) as Hrun.
  { induction evs as [|ev evs IH]; intros s Hs; [done|].
    apply IH. by apply ok_handle. }
  apply Hrun. apply Forall_nil_2.
Qed.
End store_invariant.

(** *** How a record of the store can change *)

Section store_relation.
Variable R : File → File → Prop.
Hypothesis R_refl : ∀ f, R f f.
Hypothesis R_trans : ∀ f g h, R f g → R g h → R f h.
Hypothesis R_deactivate : ∀ f, R f (deactivate f).
Hypothesis R_set_path : ∀ p f, R f (set_path p f).
Hypothesis R_set_context : ∀ e f, isActive f = true → R f (set_context e f).

(** The store only grows, and every record is related to its later
    self. *)
Definition evolves (s s' : t) : Prop :=
  length (objects s) ≤ length (objects s')
  ∧ ∀ r, r < length (objects s) → R (objects s !!! r) (objects s' !!! r).

Lemma evolves_refl s : evolves s s.
Proof. split; [done|]. intros r _. apply R_refl. Qed.

Lemma evolves_trans s1 s2 s3 : evolves s1 s2 → evolves s2 s3 → evolves s1 s3.
Proof.
  intros [Hl1 H1] [Hl2 H2]. split; [lia|]. intros r Hr.
  eapply R_trans; [by apply H1|]. apply H2. lia.
Qed.

Lemma evolves_alter g r0 s rs :
  R (objects s !!! r0) (g (objects s !!! r0)) →
  evolves s {| objects := alter g r0 (objects s); openFiles := rs |}.
Proof.
  intros Hg. split; simpl; [by rewrite length_alter|]. intros r Hr.
  destruct (decide (r0 = r)) as [->|Hne].
  - by rewrite list_lookup_total_alter_eq.
  - rewrite list_lookup_total_alter_ne by done. apply R_refl.
Qed.

Lemma evolves_updateActiveContext e s : evolves s (updateActiveContext e s).
Proof.
  unfold updateActiveContext.
  destruct (find_ref _ _ _) as [r|]; [|apply evolves_refl].
  destruct (isActive _) eqn:Hact; [|apply evolves_refl].
  apply evolves_alter. by apply R_set_context.
Qed.

Lemma evolves_remove u s : evolves s (remove u s).
Proof.
  unfold remove. destruct (findIndex _ _ _); [|apply evolves_refl].
  split; simpl; [done|]. intros r _. apply R_refl.
Qed.

Lemma evolves_rename u v s : evolves s (rename u v s).
Proof.
  unfold rename. destruct (list_find _ _) as [[i r]|]; [|apply evolves_refl].
  apply evolves_alter. apply R_set_path.
Qed.

Lemma evolves_addOrMoveToFront e now s :
  evolves s (addOrMoveToFront e now s).
Proof.
  unfold addOrMoveToFront.
  eapply evolves_trans; [|apply evolves_updateActiveContext].
  set (h1 := match find_ref _ _ _ with Some _ => _ | None => _ end).
  assert (evolves s {| objects := h1; openFiles := openFiles s |})
    as [Hl1 H1].
  { subst h1. destruct (find_ref _ _ _) as [r|].
    - apply evolves_alter, R_deactivate.
    - split; simpl; [done|]. intros r _. apply R_refl. }
  simpl in Hl1, H1. split; simpl.
  - rewrite length_app. simpl. lia.
  - intros r Hr. rewrite lookup_total_app_l by lia. by apply H1.
Qed.

Lemma evolves_handle s ev : evolves s (handle s ev).
Proof.
  destruct ev as [[e|] now|e|u|us|ps]; simpl.
  - destruct (isFileUri _);
      [apply evolves_addOrMoveToFront | apply evolves_refl].
  - apply evolves_refl.
  - destruct (isFileUri _);
      [apply evolves_updateActiveContext | apply evolves_refl].
  - destruct (isFileUri _); [apply evolves_remove | apply evolves_refl].
  - revert s. induction us as [|u us IH]; intros s; [apply evolves_refl|].
    simpl. eapply evolves_trans; [|apply IH].
    destruct (isFileUri _); [apply evolves_remove | apply evolves_refl].
  - revert s. induction ps as [|[u v] ps IH]; intros s;
      [apply evolves_refl|].
    simpl. eapply evolves_trans; [|apply IH].
    destruct (isFileUri u); [|apply evolves_refl].
    destruct (isFileUri v); [apply evolves_rename | apply evolves_remove].
Qed.

Lemma evolves_run evs s : evolves s (run evs s).
Proof.
  revert s. induction evs as [|ev evs IH]; intros s; [apply evolves_refl|].
  eapply evolves_trans; [apply evolves_handle | apply IH].
Qed.
End store_relation.

(** *** Cursor and selected text *)

Lemma length_append (s1 s2 : string) :
  String.length (s1 +:+ s2) = String.length s1 + String.length s2.
Proof. induction s1 as [|c s1 IH]; simpl; [done | by rewrite IH]. Qed.

(** [substring(0, m)] of a string with at least [m] characters is its
    prefix of length [m]. *)
Lemma substring_0_prefix (m : nat) (s : string) :
  m ≤ String.length s →
  String.length (String.substring 0 m s) = m
  ∧ ∃ rest, s = String.substring 0 m s +:+ rest.
Proof.
  revert s. induction m as [|m IH]; intros s Hm.
  - split; [by destruct s | exists s; by destruct s].
  - destruct s as [|c s]; simpl in Hm; [lia|].
    destruct (IH s) as [Hlen [rest Hrest]]; [lia|]. simpl. split.
    + by rewrite Hlen.
    + exists rest.
      change (String c s = String c (String.substring 0 m s +:+ rest)).
      congruence.
Qed.

Lemma selected_of_short (txt : string) :
  0 < String.length txt ≤ MAX_SELECTED_TEXT_LENGTH →
  selected_of txt = Some txt.
Proof.
  intros [Hpos Hle]. unfold selected_of.
  rewrite decide_False by (intros ->; simpl in Hpos; lia).
  by rewrite decide_False by lia.
Qed.

Lemma selected_of_long (txt : string) :
  MAX_SELECTED_TEXT_LENGTH < String.length txt →
  selected_of txt
  = Some (String.substring 0 MAX_SELECTED_TEXT_LENGTH txt +:+ TRUNCATED).
Proof.
  intros Hlt. unfold selected_of.
  rewrite decide_False by (intros ->; simpl in Hlt; lia).
  by rewrite decide_True by done.
Qed.

Lemma selected_of_nonempty (txt : string) : selected_of txt ≠ Some "".
Proof.
  unfold selected_of. case_decide as Hempty; [done|].
  case_decide; [|congruence]. intros [= Heq].
  apply (f_equal String.length) in Heq. rewrite length_append in Heq.
  simpl in Heq. lia.
Qed.

(** In a reachable state, a selection change in the editor of the active
    tracked file rewrites the front entry and nothing else. *)
Lemma selection_change_active evs e f :
  let s := run evs empty in
  f ∈ files s → path f = fsPath (document_uri e) → isActive f = true →
  ∃ tl, files s = f :: tl
        ∧ files (updateActiveContext e s) = set_context e f :: tl.
Proof.
  intros s Hin Hp Hact.
  pose proof (front_only_run evs) as Hfront. fold s in Hfront.
  destruct (sim_updateActiveContext e s (wf_run evs)) as [_ ->].
  destruct (files s) as [|g tl]; [by apply elem_of_nil in Hin|].
  destruct Hfront as [_ Htl].
  apply elem_of_cons in Hin as [->|Hin].
  - exists tl. split; [done|]. unfold updateActiveContext_l. simpl.
    rewrite decide_True by done. by rewrite Hact.
  - exfalso. eapply clean_not_active; [|done].
    eapply Forall_forall in Htl; done.
Qed.

(** C5, as amended. In a reachable state, a selection change in the editor
    of the active tracked file rewrites the front entry only: its cursor
    becomes (editor line + 1, editor character); its selected text is
    absent when the selection is empty, the selection itself when it has
    between 1 and 16384 characters, and otherwise the first 16384
    characters of the selection followed by the marker, 16399 characters
    in all. *)
Theorem C5_selection_change_on_active_file
    (evs : list Event) (e : TextEditor) (pos : Position) (f : File) :
  let s := run evs empty in
  let txt := selection_text e in
  let L := String.length txt in
  let prefix := String.substring 0 MAX_SELECTED_TEXT_LENGTH txt in
  isFileUri (document_uri e) = true →
  f ∈ files s → path f = fsPath (document_uri e) → isActive f = true →
  selection_active e = Some pos →
  ∃ tl sel,
    files s = f :: tl
    ∧ files (handle s (DidChangeTextEditorSelection e))
      = {| path := path f; timestamp := timestamp f; isActive := true;
           cursor := Some {| line := line pos + 1;
                             character := character pos |};
           selectedText := sel |} :: tl
    ∧ (L = 0 → sel = None)
    ∧ (0 < L ≤ MAX_SELECTED_TEXT_LENGTH → sel = Some txt)
    ∧ (MAX_SELECTED_TEXT_LENGTH < L →
         sel = Some (prefix +:+ TRUNCATED)
         ∧ (∃ rest, txt = prefix +:+ rest)
         ∧ String.length prefix = MAX_SELECTED_TEXT_LENGTH
         ∧ String.length (prefix +:+ TRUNCATED)
           = MAX_SELECTED_TEXT_LENGTH + 15).
Proof.
  intros s txt L prefix He Hin Hp Hact Hpos.
  destruct (selection_change_active evs e f Hin Hp Hact) as (tl & Hs & Hs').
  exists tl, (selected_of txt).
  change (handle s (DidChangeTextEditorSelection e))
    with (if isFileUri (document_uri e) then updateActiveContext e s else s).
  subst s. rewrite He, Hs'.
  split; [done|]. split.
  { unfold set_context. by rewrite Hact, Hpos. }
  split_and!.
  - intros HL. destruct txt; [done | simpl in HL; subst L; simpl in HL; lia].
  - apply selected_of_short.
  - intros HL. destruct (substring_0_prefix MAX_SELECTED_TEXT_LENGTH txt)
      as [Hlen Hrest]; [subst L; lia|].
    split_and!; [by apply selected_of_long | done | done |].
    subst prefix. by rewrite length_append, Hlen.
Qed.

Lemma C5_selection_change_witness :
  ∃ tl sel,
    files (run [activate "/a" 1; activate "/b" 2] empty)
    = {| path := "/b"; timestamp := 2; isActive := true;
         cursor := Some {| line := 1; character := 0 |};
         selectedText := None |} :: tl
    ∧ files (run [activate "/a" 1; activate "/b" 2;
                  DidChangeTextEditorSelection (editor "/b" 6 2 "let x")]
               empty)
      = {| path := "/b"; timestamp := 2; isActive := true;
           cursor := Some {| line := 7; character := 2 |};
           selectedText := sel |} :: tl
    ∧ sel = Some "let x".
Proof.
  destruct (C5_selection_change_on_active_file
              [activate "/a" 1; activate "/b" 2]
              (editor "/b" 6 2 "let x") {| line := 6; character := 2 |}
              {| path := "/b"; timestamp := 2; isActive := true;
                 cursor := Some {| line := 1; character := 0 |};
                 selectedText := None |})
    as (tl & sel & Hs & Hs' & _ & Hshort & _);
    [reflexivity | by left | reflexivity | reflexivity | reflexivity |].
  exists tl, sel. split; [exact Hs|]. split; [exact Hs'|].
  apply Hshort. by_compute.
Defined.

(** The claim C5 as stated does not hold for the empty selection, which
    has length 0 ≤ 16384: the stored selected text is then absent, not the
    (empty) selection. *)
Lemma C5_empty_selection_is_not_stored :
  String.length (selection_text (editor "/a" 3 4 ""))
    ≤ MAX_SELECTED_TEXT_LENGTH
  ∧ files (run [activate "/a" 1;
                DidChangeTextEditorSelection (editor "/a" 3 4 "")] empty)
    = [ {| path := "/a"; timestamp := 1; isActive := true;
           cursor := Some {| line := 4; character := 4 |};
           selectedText := None |} ]
  ∧ selectedText
      <$> head (files (run [activate "/a" 1;
                            DidChangeTextEditorSelection (editor "/a" 3 4 "")]
                         empty))
    ≠ Some (Some (selection_text (editor "/a" 3 4 ""))).
Proof.
  split; [by_compute|].
  split; [reflexivity|]. vm_compute. congruence.
Qed.

Example selected_of_truncates :
  selected_of (repeat_char "x" 16385)
  = Some (repeat_char "x" 16384 +:+ "... [TRUNCATED]").
Proof. vm_compute. reflexivity. Qed.

(** *** Snapshots *)

Lemma observe_state b s : observe (objects s) (state b s) = files s.
Proof. done. Qed.

Lemma read_Forall (P : File → Prop) h rs :
  P inhabitant → Forall P h → Forall P (read h rs).
Proof.
  intros Hd Hh. unfold read. apply Forall_fmap, Forall_forall.
  intros r _. simpl. destruct (decide (r < length h)) as [Hr|Hr].
  - by apply Forall_lookup_total_1.
  - rewrite list_lookup_total_alt, lookup_ge_None_2; [done | lia].
Qed.

(** C10. In a reachable state, a selection change with an empty selection
    in the editor of the active tracked file leaves that file, at the
    front, without selected text. And no record read through a context
    snapshot, when it is taken or after any further events, has the empty
    string as its selected text. *)
Theorem C10_empty_selection_is_absent
    (evs evs' : list Event) (isTrusted : bool) :
  let s := run evs empty in
  (∀ e f,
     isFileUri (document_uri e) = true → selection_text e = "" →
     f ∈ files s → path f = fsPath (document_uri e) → isActive f = true →
     ∃ f' tl,
       files (handle s (DidChangeTextEditorSelection e)) = f' :: tl
       ∧ path f' = path f ∧ isActive f' = true ∧ selectedText f' = None)
  ∧ Forall (λ f, selectedText f ≠ Some "")
      (observe (objects (run evs' s)) (state isTrusted s)).
Proof.
  intros s. split.
  - intros e f He Htxt Hin Hp Hact.
    destruct (selection_change_active evs e f Hin Hp Hact) as (tl & _ & Hs').
    exists (set_context e f), tl.
    change (handle s (DidChangeTextEditorSelection e))
      with (if isFileUri (document_uri e) then updateActiveContext e s else s).
    subst s. rewrite He, Hs'. simpl. by rewrite Htxt.
  - apply read_Forall; [done|]. subst s. unfold run. rewrite <- foldl_app.
    apply (store_invariant (λ f, selectedText f ≠ Some "")); try done.
    intros e f _. apply selected_of_nonempty.
Qed.

Lemma C10_empty_selection_witness :
  ∃ f' tl,
    files (run [DidChangeActiveTextEditor (Some (editor "/a" 2 5 "foo")) 1;
                DidChangeTextEditorSelection (editor "/a" 3 4 "")] empty)
    = f' :: tl
    ∧ path f' = "/a" ∧ isActive f' = true ∧ selectedText f' = None.
Proof.
  destruct (C10_empty_selection_is_absent
              [DidChangeActiveTextEditor (Some (editor "/a" 2 5 "foo")) 1]
              [] true) as [Hsel _].
  exact (Hsel (editor "/a" 3 4 "")
           {| path := "/a"; timestamp := 1; isActive := true;
              cursor := Some {| line := 3; character := 5 |};
              selectedText := Some "foo" |}
           eq_refl eq_refl ltac:(by left) eq_refl eq_refl).
Defined.

(** The claim C9 as stated does not hold: the snapshot lists the same
    records as the manager, and activating another file clears the active
    flag, the cursor and the selected text of a record the snapshot
    holds. *)
Lemma C9_snapshot_changes_after_activation :
  observe
    (objects (run [DidChangeActiveTextEditor
                     (Some (editor "/a" 2 5 "foo")) 1] empty))
    (state true (run [DidChangeActiveTextEditor
                        (Some (editor "/a" 2 5 "foo")) 1] empty))
  = [ {| path := "/a"; timestamp := 1; isActive := true;
         cursor := Some {| line := 3; character := 5 |};
         selectedText := Some "foo" |} ]
  ∧ observe
      (objects (run [DidChangeActiveTextEditor
                       (Some (editor "/a" 2 5 "foo")) 1;
                     activate "/b" 2] empty))
      (state true (run [DidChangeActiveTextEditor
                          (Some (editor "/a" 2 5 "foo")) 1] empty))
    = [ {| path := "/a"; timestamp := 1; isActive := false;
           cursor := None; selectedText := None |} ]
  ∧ observe
      (objects (run [DidChangeActiveTextEditor
                       (Some (editor "/a" 2 5 "foo")) 1;
                     activate "/b" 2] empty))
      (state true (run [DidChangeActiveTextEditor
                          (Some (editor "/a" 2 5 "foo")) 1] empty))
    ≠ observe
        (objects (run [DidChangeActiveTextEditor
                         (Some (editor "/a" 2 5 "foo")) 1] empty))
        (state true (run [DidChangeActiveTextEditor
                            (Some (editor "/a" 2 5 "foo")) 1] empty)).
Proof. split_and!; [reflexivity..|]. by_compute. Qed.

(** C9, as amended. A snapshot copies the array of the manager: read when
    it is taken it shows the tracked files, and later events change neither
    the number of its entries nor the timestamp of any of them, nor the
    active flag, cursor and selected text of an entry that was inactive
    when the snapshot was taken. (The records themselves are shared with
    the manager: the path of an entry, and every field but the timestamp of
    the entry that was active, can change.) *)
Theorem C9_snapshot_copies_the_array
    (evs evs' : list Event) (isTrusted : bool) :
  let s := run evs empty in
  let c := state isTrusted s in
  let s' := run evs' s in
  observe (objects s) c = files s
  ∧ ctx_isTrusted c = isTrusted
  ∧ length (observe (objects s') c) = length (files s)
  ∧ ∀ i f, files s !! i = Some f →
      ∃ f', observe (objects s') c !! i = Some f'
        ∧ timestamp f' = timestamp f
        ∧ (isActive f = false →
             isActive f' = false ∧ cursor f' = cursor f
             ∧ selectedText f' = selectedText f).
Proof.
  intros s c s'. split_and!; [done | done | |].
  { unfold observe, files, read. by rewrite !length_fmap. }
  intros i f Hi.
  pose proof (front_only_run evs) as Hfront. fold s in Hfront.
  destruct (wf_run evs) as [_ Hall]. fold s in Hall.
  unfold files, read in Hi. rewrite list_lookup_fmap in Hi.
  destruct (openFiles s !! i) as [r|] eqn:Hr; [|done].
  injection Hi as Hf.
  assert (r < length (objects s)) as Hlt
    by exact (Forall_lookup_1 _ _ _ _ Hall Hr).
  destruct (evolves_run later) with (evs := evs') (s := s)
    as [_ Hev]; unfold later.
  { done. }
  { intros f1 f2 f3 [? ?] [? ?]. split; [congruence | auto]. }
  { done. }
  { intros p g. split; [done|]. by intros (? & ? & ?). }
  { intros e g Hact. split; [done|]. intros (Hg & _). congruence. }
  specialize (Hev r Hlt) as [Hts Hclean]. rewrite Hf in Hts, Hclean.
  exists (objects s' !!! r). split_and!; [|done|].
  { unfold observe, read. simpl. by rewrite list_lookup_fmap, Hr. }
  intros Hinactive.
  assert (clean f) as Hcf.
  { assert (f ∈ files s) as Hin.
    { unfold files, read. rewrite <- Hf.
      apply (list_elem_of_fmap_2 (λ r, objects s !!! r)).
      by eapply list_elem_of_lookup_2. }
    destruct (files s) as [|g tl]; [by apply elem_of_nil in Hin|].
    destruct Hfront as [[Hg|Hg] Htl].
    - apply elem_of_cons in Hin as [->|Hin]; [congruence|].
      eapply Forall_forall in Htl; done.
    - apply elem_of_cons in Hin as [->|Hin]; [done|].
      eapply Forall_forall in Htl; done. }
  destruct (Hclean Hcf) as (? & ? & ?). destruct Hcf as (? & ? & ?).
  subst s'. split_and!; congruence.
Qed.

Lemma C9_inactive_entry_witness :
  ∃ f',
    observe
      (objects (run [activate "/a" 1; activate "/b" 2;
                     DidChangeTextEditorSelection (editor "/b" 7 1 "bar");
                     activate "/c" 3] empty))
      (state true (run [activate "/a" 1; activate "/b" 2] empty)) !! 1
    = Some f'
    ∧ timestamp f' = 1
    ∧ isActive f' = false ∧ cursor f' = None ∧ selectedText f' = None.
Proof.
  destruct (C9_snapshot_copies_the_array
              [activate "/a" 1; activate "/b" 2]
              [DidChangeTextEditorSelection (editor "/b" 7 1 "bar");
               activate "/c" 3] true) as (_ & _ & _ & Hentry).
  destruct (Hentry 1 {| path := "/a"; timestamp := 1; isActive := false;
                        cursor := None; selectedText := None |} eq_refl)
    as (f' & Hf' & Hts & Hrest).
  exists f'. split; [exact Hf'|]. split; [exact Hts|]. by apply Hrest.
Defined.
End OFMFacts.

(** ** Facts about diff-manager.ts *)

Module DiffFacts.
Import Diff.

Section maps.
Context {V : Type}.
Implicit Types (m : Map V) (k : Uri) (v : V).

Lemma map_get_set_eq k v m : map_get k (map_set k v m) = Some v.
Proof.
  induction m as [|[k' v'] m IH]; simpl.
  - by rewrite decide_True.
  - case_decide; simpl; [by rewrite decide_True|].
    by rewrite decide_False.
Qed.

Lemma map_get_set_ne k k' v m :
  k ≠ k' → map_get k' (map_set k v m) = map_get k' m.
Proof.
  intros Hne. induction m as [|[k0 v0] m IH]; simpl.
  - by rewrite decide_False.
  - case_decide as Hk0; simpl.
    + subst k0. by rewrite !decide_False.
    + case_decide; [done | apply IH].
Qed.

Lemma map_set_fresh k v m : map_get k m = None → map_set k v m = m ++ [(k, v)].
Proof.
  induction m as [|[k0 v0] m IH]; simpl; [done|].
  case_decide; [done|]. intros Hm. by rewrite IH.
Qed.

Lemma map_get_delete_eq k m : map_get k (map_delete k m) = None.
Proof.
  unfold map_delete. induction m as [|[k0 v0] m IH]; [done|].
  rewrite filter_cons. simpl. case_decide as Hk0; simpl; [|done].
  by rewrite decide_False.
Qed.

End maps.

Lemma right_uri_inj p r1 r2 : r1 ≠ r2 → right_uri p r1 ≠ right_uri p r2.
Proof. intros Hne [= Heq]. done. Qed.

(** [showDiff] for a path [Uri.from] accepts, and for one it refuses. *)
Lemma showDiff_accepted p c r e s :
  begins_with_two_slashes p = false →
  showDiff p c r e s
  = vscode_diff
      (if e then file_uri p
       else {| scheme := "untitled"; uri_path := p; query := "" |})
      (right_uri p r)
      (setContext true
         (addDiffDocument (right_uri p r) (mkDiffInfo p c (right_uri p r))
            (setContent (right_uri p r) c s))).
Proof. intros Hp. unfold showDiff, Uri_from. by rewrite Hp. Qed.

Lemma showDiff_refused p c r e s :
  begins_with_two_slashes p = true → showDiff p c r e s = s.
Proof. intros Hp. unfold showDiff, Uri_from. by rewrite Hp. Qed.

(** After [showDiff], the diff is registered, cached and shown in a tab,
    and its surface, if the editor did not hold a document for the
    identifier before, shows the proposed content. *)
Lemma showDiff_registers p c r e s :
  begins_with_two_slashes p = false →
  let u := right_uri p r in
  let s1 := showDiff p c r e s in
  map_get u (diffDocuments s1) = Some (mkDiffInfo p c u)
  ∧ map_get u (content s1) = Some c
  ∧ (map_get u (documents s) = None → surface u s1 = c)
  ∧ (∃ l, mkTab l u ∈ tabs s1)
  ∧ isVisible s1 = true.
Proof.
  intros Hp u s1. subst s1. rewrite (showDiff_accepted p c r e s Hp).
  unfold vscode_diff, surface, openTextDocument,
    provideTextDocumentContent.
  fold u. simpl.
  destruct (map_get u (documents s)) as [old|] eqn:Hdoc; simpl;
    repeat (rewrite ?map_get_set_eq, ?Hdoc; simpl);
    (split_and!; [done..| |done]);
    eexists; apply elem_of_app; right; by left.
Qed.

(** [showDiff] leaves every other diff as it was. *)
Lemma showDiff_other p c r e s u' :
  let s1 := showDiff p c r e s in
  right_uri p r ≠ u' →
  map_get u' (diffDocuments s1) = map_get u' (diffDocuments s)
  ∧ map_get u' (content s1) = map_get u' (content s)
  ∧ surface u' s1 = surface u' s
  ∧ (∀ tab, tab ∈ tabs s → tab ∈ tabs s1).
Proof.
  intros s1 Hne. subst s1.
  destruct (begins_with_two_slashes p) eqn:Hp;
    [by rewrite (showDiff_refused p c r e s Hp)|].
  rewrite (showDiff_accepted p c r e s Hp).
  unfold vscode_diff, surface, openTextDocument,
    provideTextDocumentContent.
  set (u := right_uri p r) in *. simpl.
  destruct (map_get u (documents s)) as [old|] eqn:Hdoc; simpl;
    repeat (rewrite ?map_get_set_eq, ?Hdoc, ?map_get_set_ne by done; simpl);
    (split_and!; [done..| |]);
    try (intros tab Htab; apply elem_of_app; by left);
    by destruct (map_get u' (documents s)).
Qed.

Lemma showDiff_diffDocuments p c r e s :
  begins_with_two_slashes p = false →
  diffDocuments (showDiff p c r e s)
  = map_set (right_uri p r) (mkDiffInfo p c (right_uri p r)) (diffDocuments s).
Proof.
  intros Hp. rewrite (showDiff_accepted p c r e s Hp).
  unfold vscode_diff, openTextDocument. simpl.
  destruct (map_get _ (documents s)) eqn:Hdoc; simpl;
    repeat (rewrite ?map_get_set_eq, ?Hdoc; simpl); done.
Qed.

Lemma showDiff_fired p c r e s : fired (showDiff p c r e s) = fired s.
Proof.
  destruct (begins_with_two_slashes p) eqn:Hp;
    [by rewrite (showDiff_refused p c r e s Hp)|].
  rewrite (showDiff_accepted p c r e s Hp).
  unfold vscode_diff, openTextDocument. simpl. by destruct (map_get _ _).
Qed.

(** C6, as amended. When the two calls draw different random numbers
    and the path is one [Uri.from] accepts (it does not begin with two
    slashes), opening a diff twice for the same path yields two distinct
    document identifiers, both registered with their own content, cache
    entry and tab; where the editor held no document for either
    identifier, each surface shows its own content; and where neither
    identifier was registered before, the table grows by exactly these two
    entries. (The code does not compare a new identifier with those in
    use; for a path that begins with two slashes [Uri.from] throws and
    the call registers nothing.) *)
Theorem C6_two_opens_are_independent
    (s : Diff.t) (p c1 c2 r1 r2 : string) (e1 e2 : bool) :
  begins_with_two_slashes p = false →
  r1 ≠ r2 →
  let u1 := right_uri p r1 in
  let u2 := right_uri p r2 in
  let s2 := showDiff p c2 r2 e2 (showDiff p c1 r1 e1 s) in
  u1 ≠ u2
  ∧ map_get u1 (diffDocuments s2) = Some (mkDiffInfo p c1 u1)
  ∧ map_get u2 (diffDocuments s2) = Some (mkDiffInfo p c2 u2)
  ∧ map_get u1 (content s2) = Some c1
  ∧ map_get u2 (content s2) = Some c2
  ∧ (∃ l1 l2, mkTab l1 u1 ∈ tabs s2 ∧ mkTab l2 u2 ∈ tabs s2)
  ∧ (map_get u1 (documents s) = None → map_get u2 (documents s) = None →
     surface u1 s2 = c1 ∧ surface u2 s2 = c2)
  ∧ (map_get u1 (diffDocuments s) = None →
     map_get u2 (diffDocuments s) = None →
     diffDocuments s2
     = diffDocuments s
       ++ [(u1, mkDiffInfo p c1 u1); (u2, mkDiffInfo p c2 u2)]).
Proof.
  intros Hp Hr u1 u2 s2.
  assert (u1 ≠ u2) as Hne by (by apply right_uri_inj).
  assert (u2 ≠ u1) as Hne' by done.
  destruct (showDiff_registers p c1 r1 e1 s Hp)
    as (Hd1 & Hc1 & Hs1 & [l1 Ht1] & _).
  destruct (showDiff_registers p c2 r2 e2 (showDiff p c1 r1 e1 s) Hp)
    as (Hd2 & Hc2 & Hs2 & [l2 Ht2] & _).
  destruct (showDiff_other p c2 r2 e2 (showDiff p c1 r1 e1 s) u1 Hne')
    as (Hd & Hc & Hs & Ht).
  fold u1 in Hd1, Hc1, Hs1, Ht1. fold u2 s2 in Hd2, Hc2, Hs2, Ht2.
  fold s2 in Hd, Hc, Hs, Ht.
  split_and!; [done | congruence | done | congruence | done | by eauto | |].
  { intros Ho1 Ho2. split; [rewrite Hs; by apply Hs1|]. apply Hs2.
    rewrite (showDiff_accepted p c1 r1 e1 s Hp).
    unfold vscode_diff, openTextDocument. fold u1. simpl.
    rewrite Ho1. simpl. rewrite Ho1. simpl.
    by rewrite map_get_set_ne. }
  intros Hf1 Hf2. subst s2. rewrite !showDiff_diffDocuments by done.
  fold u1 u2. rewrite (map_set_fresh u1) by done.
  rewrite map_set_fresh.
  - by rewrite <- app_assoc.
  - clear -Hf2 Hne. induction (diffDocuments s) as [|[k v] m IH]; simpl.
    + by rewrite decide_False.
    + simpl in Hf2. case_decide; [done | by apply IH].
Qed.

Lemma C6_two_opens_witness :
  diffDocuments
    (showDiff "a.txt" "x" "0.25" true (showDiff "a.txt" "x" "0.75" true empty))
  = [ (right_uri "a.txt" "0.75",
       mkDiffInfo "a.txt" "x" (right_uri "a.txt" "0.75"));
      (right_uri "a.txt" "0.25",
       mkDiffInfo "a.txt" "x" (right_uri "a.txt" "0.25")) ].
Proof.
  apply (C6_two_opens_are_independent empty "a.txt" "x" "x" "0.75" "0.25"
           true true);
    [reflexivity | by_compute | reflexivity | reflexivity].
Defined.

(** The claim C6 as stated does not hold when [Math.random()] returns the
    same number in both calls: the second call then builds the identifier
    of the first and replaces its entry, so a single diff view is
    registered, with the second content. *)
Lemma C6_same_random_number_one_entry :
  right_uri "a.txt" "0.5" = right_uri "a.txt" "0.5"
  ∧ diffDocuments
      (showDiff "a.txt" "y" "0.5" true (showDiff "a.txt" "x" "0.5" true empty))
    = [ (right_uri "a.txt" "0.5",
         mkDiffInfo "a.txt" "y" (right_uri "a.txt" "0.5")) ]
  ∧ content
      (showDiff "a.txt" "y" "0.5" true (showDiff "a.txt" "x" "0.5" true empty))
    = [ (right_uri "a.txt" "0.5", "y") ]
  ∧ length
      (diffDocuments
         (showDiff "a.txt" "y" "0.5" true
            (showDiff "a.txt" "x" "0.5" true empty)))
    = 1.
Proof. split_and!; reflexivity. Qed.

(** For a path that begins with two slashes [Uri.from] throws, and the
    call registers nothing. *)
Example showDiff_two_slashes :
  begins_with_two_slashes "//srv/a.txt" = true
  ∧ showDiff "//srv/a.txt" "x" "0.5" true empty = empty.
Proof. split; reflexivity. Qed.

(** *** Accepting a diff *)

Lemma acceptDiff_unknown u s :
  map_get u (diffDocuments s) = None → acceptDiff u s = s.
Proof. intros Hu. unfold acceptDiff. by rewrite Hu. Qed.

Lemma userEdit_surface u text s :
  is_Some (map_get u (documents s)) → surface u (userEdit u text s) = text.
Proof.
  intros [old Hold]. unfold userEdit, surface, openTextDocument.
  rewrite Hold. simpl. by rewrite map_get_set_eq.
Qed.

(** C7. Accepting a registered diff fires one [ide/diffAccepted]
    notification with the file path of the diff and the current text of
    its surface (the last text typed there, if any), removes the diff from
    the table and its content from the cache, and closes the surface's
    tab entry; accepting it again then changes nothing and fires nothing.
    Accepting an identifier that is not registered changes nothing and
    fires nothing. *)
Theorem C7_accept_reports_and_removes (s : Diff.t) (u : Uri) :
  match map_get u (diffDocuments s) with
  | Some info =>
      let s1 := acceptDiff u s in
      fired s1 = fired s ++ [DiffAccepted (originalFilePath info) (surface u s)]
      ∧ map_get u (diffDocuments s1) = None
      ∧ map_get u (content s1) = None
      ∧ tabs s1 = close_tab u (tabs s)
      ∧ acceptDiff u s1 = s1
      ∧ ∀ text, is_Some (map_get u (documents s)) →
          fired (acceptDiff u (userEdit u text s))
          = fired s ++ [DiffAccepted (originalFilePath info) text]
  | None => acceptDiff u s = s
  end.
Proof.
  destruct (map_get u (diffDocuments s)) as [info|] eqn:Hinfo;
    [|by apply acceptDiff_unknown].
  intros s1.
  assert (map_get u (diffDocuments s1) = None) as Hgone.
  { subst s1. unfold acceptDiff. rewrite Hinfo.
    unfold openTextDocument, closeDiffEditor.
    destruct (map_get u (documents s)); simpl; rewrite Hinfo; simpl;
      apply map_get_delete_eq. }
  split_and!.
  - subst s1. unfold acceptDiff, surface. rewrite Hinfo.
    unfold openTextDocument, closeDiffEditor.
    by destruct (map_get u (documents s)); simpl; rewrite Hinfo.
  - done.
  - subst s1. unfold acceptDiff. rewrite Hinfo.
    unfold openTextDocument, closeDiffEditor.
    destruct (map_get u (documents s)); simpl; rewrite Hinfo; simpl;
      apply map_get_delete_eq.
  - subst s1. unfold acceptDiff. rewrite Hinfo.
    unfold openTextDocument, closeDiffEditor.
    by destruct (map_get u (documents s)); simpl; rewrite Hinfo.
  - by apply acceptDiff_unknown.
  - intros text Hopen.
    assert (map_get u (diffDocuments (userEdit u text s)) = Some info) as Hi.
    { unfold userEdit. by destruct (map_get u (documents s)). }
    pose proof (userEdit_surface u text s Hopen) as Hsurf.
    assert (fired (userEdit u text s) = fired s) as Hfired.
    { unfold userEdit. by destruct (map_get u (documents s)). }
    unfold acceptDiff. rewrite Hi. unfold surface in Hsurf.
    destruct (openTextDocument u (userEdit u text s)) as [t s'] eqn:Hopen'.
    simpl in Hsurf. subst t. simpl. f_equal.
    unfold openTextDocument in Hopen'.
    destruct (map_get u (documents (userEdit u text s)));
      injection Hopen' as _ <-; simpl;
      by destruct (map_get u (diffDocuments (userEdit u text s))).
Qed.

Lemma C7_accept_witness :
  fired
    (acceptDiff (right_uri "a.txt" "0.5")
       (userEdit (right_uri "a.txt" "0.5") "edited"
          (showDiff "a.txt" "proposed" "0.5" true empty)))
  = [DiffAccepted "a.txt" "edited"].
Proof.
  pose proof (C7_accept_reports_and_removes
                (showDiff "a.txt" "proposed" "0.5" true empty)
                (right_uri "a.txt" "0.5")) as H.
  simpl in H. destruct H as (_ & _ & _ & _ & _ & H).
  apply (H "edited"). by eexists.
Defined.
End DiffFacts.

(** ** Facts about ide-server.ts *)

Module ServerFacts.
Import Server.

(** *** The Authorization header *)

Lemma split_nonempty sep s : split sep s ≠ [].
Proof.
  destruct s as [|c s]; simpl; [done|].
  case_decide; [done|]. by destruct (split sep s).
Qed.

(** Joining the parts with the separator gives the string back. *)
Lemma concat_split sep s : String.concat (String sep "") (split sep s) = s.
Proof.
  induction s as [|c s IH]; [done|]. simpl split.
  pose proof (split_nonempty sep s) as Hne.
  case_decide as Hc.
  - subst c. destruct (split sep s) as [|w ws]; [done|].
    change (String.concat (String sep "") ("" :: w :: ws))
      with (String sep (String.concat (String sep "") (w :: ws))).
    by rewrite IH.
  - destruct (split sep s) as [|w ws]; [done|].
    assert (String.concat (String sep "") (String c w :: ws)
            = String c (String.concat (String sep "") (w :: ws))) as ->
      by (by destruct ws).
    by rewrite IH.
Qed.

Lemma split_two sep s a b : split sep s = [a; b] → s = a +:+ String sep b.
Proof.
  intros Hs. rewrite <- (concat_split sep s), Hs. done.
Qed.

(** The third middleware lets a request through only if its header is
    exactly [Bearer], one space, and the token of the server. *)
Lemma check_auth_Next s req :
  check_auth s req = Next →
  authorization req = Some ("Bearer " +:+ authToken s).
Proof.
  unfold check_auth. destruct (authorization req) as [h|]; simpl; [|done].
  case_bool_decide; simpl; [done|].
  destruct (split " " h) as [|p0 [|token [|? ?]]] eqn:Hs; try done.
  case_decide; [|done]. case_decide; [|done]. intros _. subst p0 token.
  by rewrite (split_two _ _ _ _ Hs).
Qed.

Lemma check_auth_rejects s req :
  authorization req ≠ Some ("Bearer " +:+ authToken s) →
  check_auth s req = Respond Unauthorized.
Proof.
  intros Hne. destruct (check_auth s req) as [r|] eqn:E.
  - revert E. unfold check_auth.
    repeat (case_match; try done); congruence.
  - by apply check_auth_Next in E.
Qed.




Example check_auth_accepts :
  check_auth (start 8080 "0b5c" true None 0)
    (mkRequest POST "/mcp" None (Some "localhost:8080")
       (Some "Bearer 0b5c") None Initialize)
  = Next.
Proof. reflexivity. Qed.

Example server1_session : transports server1 !! "sess-1" = Some 0.
Proof. by_compute. Qed.

(** C1, as amended. A request whose Authorization header is not exactly
    [Bearer <token of this server>] (missing, empty, of another form, or
    with another token) never gets to a route: the state of the server,
    with its diff manager, its open-files manager and its sessions, is
    unchanged, whatever session id the request carries and whatever the
    transport would have done with it. The body parser and the origin and
    host checks run before the check of the token. So the response is 401
    Unauthorized if the body of the request was parsed and the request
    passes the origin and host checks; if the body was parsed and one of
    these checks fails, it is the 403 of that check or, for a preflight
    without origin, the 204 of the CORS middleware; and if the parser
    refused the body, it is the answer to the parser's error, with the
    status of that error (400 for a body that is not JSON). *)
Theorem C1_unauthorized_request_is_rejected
    (s : t) (a : Arrival) (run : SdkRun) :
  authorization (request a) ≠ Some ("Bearer " +:+ authToken s) →
  (receive a run s).2 = s
  ∧ (∀ run', receive a run' s = receive a run s)
  ∧ match parse_error a with
    | None =>
        (cors (request a) = Next → check_host s (request a) = Next →
         (receive a run s).1 = Unauthorized)
        ∧ status (receive a run s).1 ∈ [401; 403; 204]
    | Some e =>
        (receive a run s).1 = mkResponse (err_status e) (Text (err_page e))
    end.
Proof.
  intros Hauth. unfold receive.
  destruct (parse_error a) as [e|]; [done|].
  pose proof (check_auth_rejects s (request a) Hauth) as Hrej.
  unfold handle_request. rewrite Hrej.
  split_and!.
  - by destruct (cors (request a)), (check_host s (request a)).
  - intros run'. by destruct (cors (request a)), (check_host s (request a)).
  - by intros -> ->.
  - unfold cors, check_host.
    repeat (case_match; simpl; try (by set_solver)).
Qed.

Lemma C1_unauthorized_witness :
  receive
    (mkArrival
       (mkRequest POST "/mcp" None (Some "127.0.0.1:8080")
          (Some "Bearer 0b5d") (Some "sess-1")
          (CallOpenDiff "a.txt" "x")) None) tool_run server1
  = (Unauthorized, server1).
Proof.
  destruct (C1_unauthorized_request_is_rejected server1
              (mkArrival
                 (mkRequest POST "/mcp" None (Some "127.0.0.1:8080")
                    (Some "Bearer 0b5d") (Some "sess-1")
                    (CallOpenDiff "a.txt" "x")) None) tool_run)
    as (Hs & _ & Hr & _); [by_compute|].
  apply injective_projections; [apply Hr; reflexivity | exact Hs].
Defined.

(** The claim C1 as stated does not hold for a request that fails an
    earlier check: without Authorization header, a request with an Origin
    header, and one with a foreign Host header, are answered 403, not
    401. *)
Lemma C1_earlier_checks_answer_403 :
  authorization
    (mkRequest POST "/mcp" (Some "http://example.com")
       (Some "localhost:8080") None (Some "sess-1") OtherBody) = None
  ∧ handle_request
      (mkRequest POST "/mcp" (Some "http://example.com")
         (Some "localhost:8080") None (Some "sess-1") OtherBody)
      tool_run server1
    = (mkResponse 403 (JsonError "Request denied by CORS policy."), server1)
  ∧ handle_request
      (mkRequest POST "/mcp" None (Some "example.com:8080") None
         (Some "sess-1") OtherBody)
      tool_run server1
    = (mkResponse 403 (JsonError "Invalid Host header"), server1)
  ∧ status
      (handle_request
         (mkRequest POST "/mcp" (Some "http://example.com")
            (Some "localhost:8080") None (Some "sess-1") OtherBody)
         tool_run server1).1
    ≠ 401.
Proof. split_and!; [reflexivity..|]. by_compute. Qed.

(** *** Requests without a session *)

(** A session id that is no own property of the table and no name of
    [Object.prototype] is not found. *)
Lemma transports_get_None m k :
  m !! k = None → k ∉ Object_prototype → transports_get m k = None.
Proof. intros Hm Hk. unfold transports_get. by rewrite Hm, decide_False. Qed.

(** A POST that passed the three checks, names no session and is not an
    initialization is answered 400 with error code -32000, and the state,
    the table of sessions in particular, is unchanged. *)
Lemma post_without_session_is_rejected s req run :
  cors req = Next → check_host s req = Next → check_auth s req = Next →
  method req = POST → url req = "/mcp" →
  isInitializeRequest (body req) = false →
  no_session s req →
  handle_request req run s = (BadRequest, s).
Proof.
  intros Hc Hh Ha Hm Hu Hb Hno. unfold handle_request, route, post_mcp.
  rewrite Hc, Hh, Ha, Hm, Hb, decide_True by done.
  unfold no_session in Hno.
  destruct (mcp_session_id req) as [sid|]; simpl; [|done].
  destruct Hno as [Hs Hp]. rewrite transports_get_None by done.
  by rewrite andb_false_r; destruct (negb _).
Qed.

(** C2: the code misses a case. Its first test reads the session id from
    the table with [this.transports[sessionId]], which also finds what the
    table inherits from [Object.prototype]. With the session id
    [constructor], which names no session, a POST that is not an
    initialization takes the branch for known sessions, calling
    [handleRequest] on the inherited member throws, and the answer is 500
    with error code -32603 instead of 400 with -32000. (The state is
    unchanged.) *)
Theorem C2_inherited_name_is_taken_for_a_session :
  transports server1 !! "constructor" = None
  ∧ isInitializeRequest (CallOpenDiff "a.txt" "x") = false
  ∧ handle_request
      (mkRequest POST "/mcp" None (Some "localhost:8080")
         (Some "Bearer 0b5c") (Some "constructor")
         (CallOpenDiff "a.txt" "x")) tool_run server1
    = (mkResponse 500 (JsonRpcError (-32603) "Internal server error"),
       server1)
  ∧ handle_request
      (mkRequest POST "/mcp" None (Some "localhost:8080")
         (Some "Bearer 0b5c") (Some "sess-2")
         (CallOpenDiff "a.txt" "x")) tool_run server1
    = (mkResponse 400
         (JsonRpcError (-32000)
            "Bad Request: No valid session ID provided for non-initialize request."),
       server1).
Proof. split_and!; [by_compute | reflexivity..]. Qed.

(** *** The table of sessions changes only through two callbacks *)

Lemma transports_with_diffManager d s :
  transports (with_diffManager d s) = transports s.
Proof.
  unfold with_diffManager.
  generalize (drop (length (Diff.fired (diffManager s))) (Diff.fired d)).
  intros new. change (transports s) with (transports (set_diffManager d s)).
  generalize (set_diffManager d s). clear s.
  induction new as [|n new IH]; intros s; [done|]. simpl. by rewrite IH.
Qed.






(** *** Keep-alive *)

Lemma keepAlive_tick_transports r d s :
  transports (keepAlive_tick r d s) = transports s.
Proof.
  unfold keepAlive_tick. destruct (objs s !! r) as [tr|]; [|done].
  by destruct (keepAlive tr).
Qed.







End ServerFacts.

(** ** Further facts about open-files-manager.ts *)

Module OFMCoverage.
Import OFM OFMNotions OFMFacts.

(** *** The bound holds whatever the events *)

Lemma length_deactivate_l l : length (deactivate_l l) = length l.
Proof.
  unfold deactivate_l. destruct (list_find _ l) as [[i f]|]; [|done].
  apply length_alter.
Qed.

Lemma length_rename_l a b l : length (rename_l a b l) = length l.
Proof.
  unfold rename_l. destruct (list_find _ l) as [[i f]|]; [|done].
  apply length_alter.
Qed.

Lemma length_updateActiveContext_l e l :
  length (updateActiveContext_l e l) = length l.
Proof.
  unfold updateActiveContext_l. destruct (list_find _ l) as [[i f]|]; [|done].
  destruct (isActive f); [apply length_alter | done].
Qed.

Lemma length_cap {A} (l : list A) :
  length l ≤ S MAX_FILES → length (cap l) ≤ MAX_FILES.
Proof.
  intros Hl. unfold cap, pop. case_decide; [|lia].
  rewrite length_take. lia.
Qed.

Lemma length_addOrMoveToFront_l e now l :
  length l ≤ MAX_FILES → length (addOrMoveToFront_l e now l) ≤ MAX_FILES.
Proof.
  intros Hl. unfold addOrMoveToFront_l.
  rewrite length_updateActiveContext_l. apply length_cap. simpl.
  pose proof (length_remove_l (fsPath (document_uri e)) (deactivate_l l)).
  rewrite length_deactivate_l in *. lia.
Qed.

(** After any events of the five kinds (not only activations) the manager
    tracks at most [MAX_FILES] = 10 files. *)
Theorem tracked_files_bounded (evs : list Event) :
  length (files (run evs empty)) ≤ MAX_FILES
  ∧ length (openFiles (run evs empty)) ≤ MAX_FILES.
Proof.
  assert (length (files (run evs empty)) ≤ MAX_FILES) as H.
  { apply (reachable_invariant (λ l, length l ≤ MAX_FILES)).
    - intros p l Hl. pose proof (length_remove_l p l). lia.
    - intros a b l Hl. by rewrite length_rename_l.
    - intros e l Hl. by rewrite length_updateActiveContext_l.
    - intros e now l Hl. by apply length_addOrMoveToFront_l.
    - simpl. unfold MAX_FILES. lia. }
  split; [done|]. unfold files, read in H. by rewrite length_fmap in H.
Qed.


(** *** Invariants that renaming in place can break *)

Section invariant_without_rename.
Variable I : list File → Prop.
Hypothesis I_remove : ∀ p l, I l → I (remove_l p l).
Hypothesis I_update : ∀ e l, I l → I (updateActiveContext_l e l).
Hypothesis I_add : ∀ e now l, I l → I (addOrMoveToFront_l e now l).

Lemma kept_remove u s : wf s ∧ I (files s) → wf (remove u s) ∧ I (files (remove u s)).
Proof.
  intros [Hwf HI]. destruct (sim_remove u s Hwf) as [? Hf].
  split; [done|]. rewrite Hf. by apply I_remove.
Qed.

Lemma kept_handle s ev :
  renames_in_place ev = false →
  wf s ∧ I (files s) → wf (handle s ev) ∧ I (files (handle s ev)).
Proof.
  intros Hev Hs. destruct ev as [[e|] now|e|u|us|ps]; simpl.
  - destruct (isFileUri _); [|done]. destruct Hs as [Hwf HI].
    destruct (sim_addOrMoveToFront e now s Hwf) as [? Hf].
    split; [done|]. rewrite Hf. by apply I_add.
  - done.
  - destruct (isFileUri _); [|done]. destruct Hs as [Hwf HI].
    destruct (sim_updateActiveContext e s Hwf) as [? Hf].
    split; [done|]. rewrite Hf. by apply I_update.
  - destruct (isFileUri _); [by apply kept_remove | done].
  - clear Hev. revert s Hs. induction us as [|u us IH]; intros s Hs; [done|].
    simpl. apply IH. destruct (isFileUri _); [by apply kept_remove | done].
  - simpl in Hev. revert s Hs.
    induction ps as [|[u v] ps IH]; intros s Hs; [done|].
    simpl in Hev. apply orb_false_iff in Hev as [Huv Hps].
    simpl. apply IH; [done|]. destruct (isFileUri u); [|done].
    destruct (isFileUri v); [done | by apply kept_remove].
Qed.

Lemma kept_run evs s :
  Forall (λ ev, renames_in_place ev = false) evs →
  wf s ∧ I (files s) → wf (run evs s) ∧ I (files (run evs s)).
Proof.
  intros Hevs. revert s. induction Hevs as [|ev evs Hev _ IH]; intros s Hs;
    [done|].
  apply IH. by apply kept_handle.
Qed.
End invariant_without_rename.

Lemma NoDup_paths_addOrMoveToFront_l e now l :
  NoDup (paths l) → length l ≤ MAX_FILES →
  NoDup (paths (addOrMoveToFront_l e now l)).
Proof.
  intros Hnd Hlen. rewrite paths_addOrMoveToFront_l by done.
  eapply sublist_NoDup; [|apply sublist_take].
  apply NoDup_cons. split; [|by apply NoDup_filter].
  intros [Hne _]%list_elem_of_filter. by apply Hne.
Qed.

(** As long as no file is renamed in place, no path is tracked twice:
    the tracked paths stay pairwise distinct under activations, selection
    changes, closes, deletions, and renames that move a file out of the
    [file] scheme. *)
Theorem tracked_paths_distinct_without_rename (evs : list Event) :
  Forall (λ ev, renames_in_place ev = false) evs →
  NoDup (paths (files (run evs empty))).
Proof.
  intros Hevs.
  destruct (kept_run (λ l, NoDup (paths l) ∧ length l ≤ MAX_FILES))
    with (evs := evs) (s := empty) as [_ [Hnd _]]; try done.
  - intros p l [Hnd Hlen]. split.
    + rewrite paths_remove_l by done. by apply NoDup_filter.
    + pose proof (length_remove_l p l). lia.
  - intros e l [Hnd Hlen]. split.
    + by rewrite paths_updateActiveContext_l.
    + by rewrite length_updateActiveContext_l.
  - intros e now l [Hnd Hlen]. split.
    + by apply NoDup_paths_addOrMoveToFront_l.
    + by apply length_addOrMoveToFront_l.
  - split; [apply wf_empty|]. split; [apply NoDup_nil_2|].
    simpl. unfold MAX_FILES. lia.
Qed.

Lemma tracked_paths_distinct_witness :
  NoDup
    (paths
       (files
          (run [activate "/a" 1; activate "/b" 2; activate "/a" 3;
                DidCloseTextDocument (file_uri "/b");
                DidRenameFiles
                  [(file_uri "/a", mkUri "vscode-userdata" "/a" "")];
                activate "/c" 4] empty))).
Proof.
  apply tracked_paths_distinct_without_rename.
  repeat (apply Forall_cons; split; [reflexivity|]). apply Forall_nil_2.
Defined.

(** Renaming in place is what can break it: renaming a tracked file onto
    the path of another tracked file leaves two entries with that path. *)
Example rename_onto_tracked_path_duplicates :
  paths
    (files (run [activate "/a" 1; activate "/b" 2;
                 DidRenameFiles [(file_uri "/b", file_uri "/a")]] empty))
  = ["/a"; "/a"].
Proof. reflexivity. Qed.

(** *** Renaming in place *)

Lemma fmap_alter_same {B} (proj : File → B) g (i : nat) (l : list File) :
  (∀ f, proj (g f) = proj f) → proj <$> alter g i l = proj <$> l.
Proof.
  intros Hg. rewrite <- (list_alter_id id (proj <$> l) i) by done.
  apply list_fmap_alter, Forall_forall. intros f _. apply Hg.
Qed.

Lemma paths_alter_set_path b (i : nat) (l : list File) :
  paths (alter (set_path b) i l) = alter (λ _, b) i (paths l).
Proof. unfold paths. apply list_fmap_alter, Forall_forall. by intros f _. Qed.

(** Renaming a file in place changes one thing in a reachable state: the
    path of the first entry that has the old path. The number of entries,
    their order, their timestamps, active flags, cursors and selected texts
    are as before; if the old path is not tracked, nothing changes. *)
Theorem rename_in_place_keeps_entries (evs : list Event) (u v : Uri) :
  isFileUri u = true → isFileUri v = true →
  let s := run evs empty in
  let s' := handle s (DidRenameFiles [(u, v)]) in
  length (files s') = length (files s)
  ∧ timestamps (files s') = timestamps (files s)
  ∧ isActive <$> files s' = isActive <$> files s
  ∧ cursor <$> files s' = cursor <$> files s
  ∧ selectedText <$> files s' = selectedText <$> files s
  ∧ paths (files s')
    = match list_find (λ q, q = fsPath u) (paths (files s)) with
      | Some (i, _) => alter (λ _, fsPath v) i (paths (files s))
      | None => paths (files s)
      end.
Proof.
  intros Hu Hv s s'. subst s'. simpl. rewrite Hu, Hv.
  destruct (sim_rename u v s (wf_run evs)) as [_ ->].
  unfold rename_l, paths at 2. rewrite list_find_fmap.
  change (λ x, (path x = fsPath u)) with (λ f, path f = fsPath u).
  destruct (list_find (λ f, path f = fsPath u) (files s)) as [[i f]|] eqn:E.
  - unfold compose. simpl.
    assert (list_find (λ x, path x = fsPath u) (files s) = Some (i, f)) as ->
      by exact E.
    simpl. unfold timestamps.
    rewrite length_alter, !fmap_alter_same by done.
    split_and!; try done. apply paths_alter_set_path.
  - unfold compose.
    assert (list_find (λ x, path x = fsPath u) (files s) = None) as ->
      by exact E.
    done.
Qed.

Lemma rename_in_place_witness :
  paths (files (run [activate "/a" 1; activate "/b" 2;
                     DidRenameFiles [(file_uri "/a", file_uri "/c")]] empty))
  = ["/b"; "/c"]
  ∧ timestamps
      (files (run [activate "/a" 1; activate "/b" 2;
                   DidRenameFiles [(file_uri "/a", file_uri "/c")]] empty))
    = [2; 1].
Proof.
  destruct (rename_in_place_keeps_entries [activate "/a" 1; activate "/b" 2]
              (file_uri "/a") (file_uri "/c") eq_refl eq_refl)
    as (_ & Hts & _ & _ & _ & Hp).
  split; [exact Hp | exact Hts].
Defined.

(** *** Events that leave the tracked files alone *)

Lemma listen_manager time m ev :
  Listeners.manager (Listeners.listen time m ev)
  = handle (Listeners.manager m) ev.
Proof.
  destruct ev as [[e|] now|e|u|us|ps]; simpl; try done;
    by destruct (isFileUri _).
Qed.

Lemma handle_without_file_uri s ev :
  concerns_file ev = false → handle s ev = s.
Proof.
  destruct ev as [[e|] now|e|u|us|ps]; simpl; try (by intros ->).
  - done.
  - induction us as [|u us IH]; [done|]. simpl.
    intros [-> Hus]%orb_false_iff. by apply IH.
  - induction ps as [|[u v] ps IH]; [done|]. simpl.
    intros [-> Hps]%orb_false_iff. by apply IH.
Qed.

(** A timeout set at [time] fires a change event once the delay has
    passed. *)
Lemma rearmed_timer_fires time d :
  Debounce.fired d
  < Debounce.fired
      (Debounce.elapse (time + Debounce.DELAY)
         (Debounce.fireWithDebounce time d)).
Proof.
  unfold Debounce.elapse, Debounce.fireWithDebounce.
  cbn [Debounce.fired Debounce.pending].
  rewrite filter_app, length_app, filter_cons_True by (simpl; lia).
  destruct (Debounce.debounceTimer d); simpl; lia.
Qed.

(** An event in which no listener finds a [file] URI leaves the tracked
    files, with their records and their order, as they are. After an
    activation, a selection change or a close of that kind the timer is as
    it was too. After a deletion or a rename of that kind the manager has
    still called [fireWithDebounce]: the timer is set anew, and a change
    event is fired once the delay has passed although nothing changed. *)
Theorem events_without_file_uri_keep_the_files
    (time : nat) (m : Listeners.t) (ev : Event) :
  concerns_file ev = false →
  let m' := Listeners.listen time m ev in
  Listeners.manager m' = Listeners.manager m
  ∧ match ev with
    | DidDeleteFiles _ | DidRenameFiles _ =>
        Listeners.timer m'
        = Debounce.fireWithDebounce time (Listeners.timer m)
        ∧ Debounce.fired (Listeners.timer m) < Listeners.fired_after time m'
    | _ => m' = m
    end.
Proof.
  intros Hev m'. split.
  - subst m'. rewrite listen_manager. by apply handle_without_file_uri.
  - subst m'. destruct ev as [[e|] now|e|u|us|ps]; simpl in *;
      try (by rewrite Hev); try done;
      (split; [done|]); apply rearmed_timer_fires.
Qed.

Lemma events_without_file_uri_witness :
  let m := Listeners.mk (run [activate "/a" 1] empty) Debounce.initial in
  let m' := Listeners.listen 7 m
              (DidDeleteFiles [mkUri "untitled" "/a" ""]) in
  Listeners.manager m' = Listeners.manager m
  ∧ Listeners.timer m'
    = Debounce.fireWithDebounce 7 (Listeners.timer m)
  ∧ Debounce.fired (Listeners.timer m) < Listeners.fired_after 7 m'.
Proof.
  intros m m'.
  exact (events_without_file_uri_keep_the_files 7 m
           (DidDeleteFiles [mkUri "untitled" "/a" ""]) eq_refl).
Defined.

Lemma handle_selection_elsewhere s e :
  (∀ f, f ∈ files s → path f = fsPath (document_uri e) → isActive f = false) →
  handle s (DidChangeTextEditorSelection e) = s.
Proof.
  intros Hina. simpl. destruct (isFileUri _); [|done].
  unfold updateActiveContext.
  pose proof (find_ref_read (λ f, path f = fsPath (document_uri e))
                (objects s) (openFiles s)) as Hf.
  destruct (find_ref _ _ _) as [r|]; [|done].
  destruct Hf as (i & Hi & (Hl & Hp & _)%list_find_Some).
  rewrite Hina; [done| |done]. by eapply list_elem_of_lookup_2.
Qed.

(** A selection change in an editor whose file is not tracked, or is
    tracked but not active, leaves the tracked files as they are. If the
    document of the editor is a file, the manager has still called
    [fireWithDebounce]: the timer is set anew and a change event is fired
    once the delay has passed; if it is not, nothing at all changes. *)
Theorem selection_change_elsewhere_keeps_the_files
    (time : nat) (m : Listeners.t) (e : TextEditor) :
  (∀ f, f ∈ files (Listeners.manager m) →
        path f = fsPath (document_uri e) → isActive f = false) →
  let m' := Listeners.listen time m (DidChangeTextEditorSelection e) in
  Listeners.manager m' = Listeners.manager m
  ∧ if isFileUri (document_uri e)
    then Listeners.timer m'
         = Debounce.fireWithDebounce time (Listeners.timer m)
         ∧ Debounce.fired (Listeners.timer m) < Listeners.fired_after time m'
    else m' = m.
Proof.
  intros Hina m'. split.
  - subst m'. rewrite listen_manager. by apply handle_selection_elsewhere.
  - subst m'. simpl. destruct (isFileUri (document_uri e)); [|done].
    split; [done|]. apply rearmed_timer_fires.
Qed.

Lemma selection_change_elsewhere_witness :
  let m := Listeners.mk (run [activate "/a" 1; activate "/b" 2] empty)
             Debounce.initial in
  let m' := Listeners.listen 9 m
              (DidChangeTextEditorSelection (editor "/a" 4 0 "x")) in
  Listeners.manager m' = Listeners.manager m
  ∧ Listeners.timer m' = Debounce.fireWithDebounce 9 (Listeners.timer m)
  ∧ Debounce.fired (Listeners.timer m) < Listeners.fired_after 9 m'.
Proof.
  intros m m'.
  apply (selection_change_elsewhere_keeps_the_files 9 m
           (editor "/a" 4 0 "x")).
  intros f Hf Hp. vm_compute in Hf.
  apply elem_of_cons in Hf as [->|Hf]; [done|].
  apply elem_of_cons in Hf as [->|Hf]; [done|]. by apply elem_of_nil in Hf.
Defined.

(** *** Closing the active file *)

(** When the active file is closed in a reachable state, its entry goes
    and the entries behind it stay, in order; no tracked file is active
    until another editor becomes active. *)
Theorem closing_the_active_file (evs : list Event) (f : File) :
  let s := run evs empty in
  head (files s) = Some f → isActive f = true →
  let s' := handle s (DidCloseTextDocument (file_uri (path f))) in
  files s' = tail (files s) ∧ active_count (files s') = 0.
Proof.
  intros s Hhd Hact s'. subst s'. simpl.
  destruct (sim_remove (file_uri (path f)) s (wf_run evs)) as [_ ->].
  pose proof (front_only_run evs) as Hfront. fold s in Hfront.
  destruct (files s) as [|g tl]; [done|]. injection Hhd as ->.
  simpl fsPath. rewrite remove_l_cons, decide_True by done.
  split; [done|]. destruct Hfront as [_ Htl]. unfold active_count. simpl.
  induction Htl as [|g tl Hg _ IH]; [done|].
  rewrite filter_cons_False; [done | by apply clean_not_active].
Qed.

Lemma closing_the_active_file_witness :
  files (run [activate "/a" 1; activate "/b" 2;
              DidCloseTextDocument (file_uri "/b")] empty)
  = [ {| path := "/a"; timestamp := 1; isActive := false;
         cursor := None; selectedText := None |} ].
Proof.
  destruct (closing_the_active_file [activate "/a" 1; activate "/b" 2]
              {| path := "/b"; timestamp := 2; isActive := true;
                 cursor := Some {| line := 1; character := 0 |};
                 selectedText := None |} eq_refl eq_refl) as [Hfiles _].
  exact Hfiles.
Defined.

(** *** Timestamps *)

Lemma sim_handle s ev :
  wf s → wf (handle s ev) ∧ files (handle s ev) = handle_l (files s) ev.
Proof.
  intros Hwf. destruct ev as [[e|] now|e|u|us|ps]; simpl.
  - destruct (isFileUri _); [by apply sim_addOrMoveToFront | done].
  - done.
  - destruct (isFileUri _); [by apply sim_updateActiveContext | done].
  - destruct (isFileUri _); [by apply sim_remove | done].
  - revert s Hwf. induction us as [|u us IH]; intros s Hwf; [done|].
    simpl. destruct (isFileUri u); [|by apply IH].
    destruct (sim_remove u s Hwf) as [Hwf' <-]. by apply IH.
  - revert s Hwf. induction ps as [|[u v] ps IH]; intros s Hwf; [done|].
    simpl. destruct (isFileUri u); [|by apply IH].
    destruct (isFileUri v).
    + destruct (sim_rename u v s Hwf) as [Hwf' <-]. by apply IH.
    + destruct (sim_remove u s Hwf) as [Hwf' <-]. by apply IH.
Qed.

Lemma newest_first_sublist ts1 ts2 :
  ts1 `sublist_of` ts2 → newest_first ts2 → newest_first ts1.
Proof.
  induction 1 as [|t ts1 ts2 Hsub IH|t ts1 ts2 Hsub IH]; simpl; [done|..].
  - intros [Hall Hs]. split; [|by apply IH].
    apply Forall_forall. intros u Hu.
    eapply Forall_forall in Hall; [done|]. by eapply elem_of_sublist.
  - intros [_ Hs]. by apply IH.
Qed.

Lemma by_time_sublist t l l' :
  timestamps l' `sublist_of` timestamps l → by_time t l → by_time t l'.
Proof.
  intros Hsub [Hall Hs]. split; [|by eapply newest_first_sublist].
  apply Forall_forall. intros u Hu.
  eapply Forall_forall in Hall; [done|]. by eapply elem_of_sublist.
Qed.

Lemma timestamps_remove_l p l :
  timestamps (remove_l p l) `sublist_of` timestamps l.
Proof.
  unfold remove_l, timestamps. destruct (list_find _ l) as [[i f]|]; [|done].
  rewrite list_fmap_delete. apply sublist_delete.
Qed.

Lemma timestamps_rename_l a b l : timestamps (rename_l a b l) = timestamps l.
Proof.
  unfold rename_l, timestamps. destruct (list_find _ l) as [[i f]|]; [|done].
  by apply fmap_alter_same.
Qed.

Lemma timestamps_updateActiveContext_l e l :
  timestamps (updateActiveContext_l e l) = timestamps l.
Proof.
  unfold updateActiveContext_l, timestamps.
  destruct (list_find _ l) as [[i f]|]; [|done].
  destruct (isActive f); [by apply fmap_alter_same | done].
Qed.

Lemma timestamps_deactivate_l l : timestamps (deactivate_l l) = timestamps l.
Proof.
  unfold deactivate_l, timestamps. destruct (list_find _ l) as [[i f]|]; [|done].
  by apply fmap_alter_same.
Qed.

Lemma by_time_addOrMoveToFront_l t e now l :
  t ≤ now → by_time t l → by_time now (addOrMoveToFront_l e now l).
Proof.
  intros Hle [Hall Hs]. unfold addOrMoveToFront_l.
  set (new := mkFile _ now true None None).
  set (rest := remove_l _ (deactivate_l l)).
  assert (timestamps rest `sublist_of` timestamps l) as Hrest.
  { subst rest. rewrite <- (timestamps_deactivate_l l).
    apply timestamps_remove_l. }
  apply (by_time_sublist now (new :: rest)).
  - rewrite timestamps_updateActiveContext_l. unfold cap, pop, timestamps.
    case_decide; [|done]. rewrite fmap_take. apply sublist_take.
  - assert (Forall (λ u, u ≤ now) (timestamps rest)) as Hnow.
    { apply Forall_forall. intros u Hu.
      eapply Forall_forall in Hall; [|by eapply elem_of_sublist]. lia. }
    split; simpl.
    + apply Forall_cons. split; [lia | done].
    + split; [done|]. by eapply newest_first_sublist.
Qed.

Lemma by_time_mono t t' l : t ≤ t' → by_time t l → by_time t' l.
Proof.
  intros Hle [Hall Hs]. split; [|done].
  eapply Forall_impl; [done|]. simpl. lia.
Qed.

Lemma by_time_steady t l ev :
  (∀ e now, ev ≠ DidChangeActiveTextEditor (Some e) now) →
  by_time t l → by_time t (handle_l l ev).
Proof.
  intros Hev Hl. destruct ev as [[e|] now|e|u|us|ps]; simpl.
  - by destruct (Hev e now).
  - done.
  - destruct (isFileUri _); [|done].
    eapply by_time_sublist; [|done].
    by rewrite timestamps_updateActiveContext_l.
  - destruct (isFileUri _); [|done].
    eapply by_time_sublist; [|done]. apply timestamps_remove_l.
  - clear Hev. revert l Hl. induction us as [|u us IH]; intros l Hl; [done|].
    simpl. apply IH. destruct (isFileUri _); [|done].
    eapply by_time_sublist; [|done]. apply timestamps_remove_l.
  - clear Hev. revert l Hl.
    induction ps as [|[u v] ps IH]; intros l Hl; [done|].
    simpl. apply IH. destruct (isFileUri u); [|done].
    destruct (isFileUri v); (eapply by_time_sublist; [|done]).
    + by rewrite timestamps_rename_l.
    + apply timestamps_remove_l.
Qed.

Lemma by_time_run evs : ∀ s t,
  wf s → by_time t (files s) → clock_ok t evs = true →
  ∃ t', by_time t' (files (run evs s)).
Proof.
  induction evs as [|ev evs IH]; intros s t Hwf Hl Hclock; [by exists t|].
  destruct (sim_handle s ev Hwf) as [Hwf' Hf].
  change (run (ev :: evs) s) with (run evs (handle s ev)).
  destruct ev as [[e|] now|e|u|us|ps];
    try (apply (IH _ t); [done| |exact Hclock];
         rewrite Hf; by apply by_time_steady).
  simpl in Hclock. destruct (isFileUri (document_uri e)) eqn:He.
  - apply andb_true_iff in Hclock as [Hle%bool_decide_eq_true Hclock].
    apply (IH _ now); [done| |done].
    rewrite Hf. simpl. rewrite He. by apply (by_time_addOrMoveToFront_l t).
  - apply (IH _ t); [done| |done]. rewrite Hf. simpl. by rewrite He.
Qed.

(** If the clock never runs backwards between activations, the tracked
    files are in the order of their timestamps, newest first, after any
    events. *)
Theorem timestamps_newest_first (evs : list Event) :
  clock_ok 0 evs = true →
  newest_first (timestamps (files (run evs empty))).
Proof.
  intros Hclock.
  destruct (by_time_run evs empty 0 wf_empty) as [t [_ Hs]]; [|done..].
  split; [apply Forall_nil_2 | done].
Qed.

Lemma timestamps_newest_first_witness :
  newest_first
    (timestamps
       (files (run [activate "/a" 5; activate "/b" 5; activate "/c" 9;
                    DidRenameFiles [(file_uri "/a", file_uri "/d")];
                    activate "/b" 12;
                    DidCloseTextDocument (file_uri "/c")] empty))).
Proof. by apply timestamps_newest_first. Defined.
End OFMCoverage.

(** ** Facts about the debounced change signal *)

Module DebounceFacts.
Import Debounce.

Lemma mutation_rearms now s :
  pending (elapse now s) = [] ∨ (∃ due, waiting due (elapse now s)) →
  waiting (now + DELAY) (step s (Mutation now))
  ∧ fired (step s (Mutation now)) = fired (elapse now s).
Proof.
  change (step s (Mutation now)) with (fireWithDebounce now (elapse now s)).
  generalize (elapse now s). clear s. intros s Hs. unfold fireWithDebounce.
  destruct Hs as [Hnone|(due & h & Hp & Hh)].
  - destruct (debounceTimer s) as [h|]; simpl; rewrite Hnone.
    + split; [|done]. by eexists.
    + split; [|done]. by eexists.
  - rewrite Hh. simpl. rewrite Hp.
    rewrite filter_cons_False by (simpl; by intros Hne).
    split; [|done]. by eexists.
Qed.

Lemma elapse_before due now s :
  waiting due s → now < due →
  waiting due (elapse now s) ∧ fired (elapse now s) = fired s.
Proof.
  intros (h & Hp & Hh) Hlt. unfold elapse, waiting. simpl. rewrite Hp.
  rewrite filter_cons_True by (simpl; lia).
  rewrite filter_cons_False by (simpl; lia). simpl.
  split; [by eexists | lia].
Qed.

Lemma elapse_due due now s :
  waiting due s → due ≤ now →
  pending (elapse now s) = [] ∧ fired (elapse now s) = S (fired s).
Proof.
  intros (h & Hp & Hh) Hle. unfold elapse. simpl. rewrite Hp.
  rewrite filter_cons_False by (simpl; lia).
  rewrite filter_cons_True by (simpl; lia). simpl. split; [done | lia].
Qed.

Lemma burst_waits ts : ∀ t s,
  waiting (t + DELAY) s → burst t ts →
  waiting (last_time t ts + DELAY) (run (Mutation <$> ts) s)
  ∧ fired (run (Mutation <$> ts) s) = fired s.
Proof.
  induction ts as [|t' ts IH]; intros t s Hs Hb; [done|].
  destruct Hb as [[Hle Hlt] Hb].
  destruct (elapse_before _ t' s Hs Hlt) as [Hw Hf].
  destruct (mutation_rearms t' s) as [Hw' Hf']; [right; eauto|].
  destruct (IH t' (step s (Mutation t')) Hw' Hb) as [Hw'' Hf''].
  change (run (Mutation <$> t' :: ts) s)
    with (run (Mutation <$> ts) (step s (Mutation t'))).
  split; [done|]. by rewrite Hf'', Hf', Hf.
Qed.

(** Starting with no timeout pending, a burst of mutations (each less
    than 50 ms after the one before) fires no change event while it lasts
    nor in the 50 ms after its last mutation, and exactly one once 50 ms
    have passed since the last mutation; after that one, passing time
    fires no more. *)
Theorem burst_fires_once (s : t) (t : nat) (ts : list nat) :
  pending s = [] → burst t ts →
  let s' := run (Mutation <$> t :: ts) s in
  let quiet := last_time t ts + DELAY in
  fired s' = fired s
  ∧ (∀ now, now < quiet → fired (step s' (Idle now)) = fired s)
  ∧ (∀ now later, quiet ≤ now → now ≤ later →
       fired (step s' (Idle now)) = S (fired s)
       ∧ fired (run [Idle now; Idle later] s') = S (fired s)).
Proof.
  intros Hquiet Hb s' quiet.
  assert (elapse t s = s) as Hel.
  { unfold elapse. rewrite Hquiet. simpl. destruct s. simpl in *.
    f_equal; [done | lia]. }
  destruct (mutation_rearms t s) as [Hw Hf]; [left; by rewrite Hel|].
  rewrite Hel in Hf.
  destruct (burst_waits ts t (step s (Mutation t)) Hw Hb) as [Hw' Hf'].
  change (run (Mutation <$> ts) (step s (Mutation t))) with s' in Hw', Hf'.
  fold quiet in Hw'. rewrite Hf in Hf'.
  split_and!; [done| |].
  - intros now Hnow. change (step s' (Idle now)) with (elapse now s').
    destruct (elapse_before _ now s' Hw' Hnow) as [_ ->]. done.
  - intros now later Hnow Hlater.
    destruct (elapse_due _ now s' Hw' Hnow) as [Hp Hfd].
    change (step s' (Idle now)) with (elapse now s').
    change (run [Idle now; Idle later] s')
      with (elapse later (elapse now s')).
    rewrite Hfd, Hf'. split; [done|].
    unfold elapse at 1. cbn [fired]. rewrite Hp, Hfd, Hf'. simpl. lia.
Qed.

Lemma burst_fires_once_witness :
  fired (run [Mutation 0; Mutation 10; Mutation 59; Mutation 100] initial)
  = 0
  ∧ fired (run [Mutation 0; Mutation 10; Mutation 59; Mutation 100;
                Idle 149] initial) = 0
  ∧ fired (run [Mutation 0; Mutation 10; Mutation 59; Mutation 100;
                Idle 150; Idle 900] initial) = 1.
Proof.
  destruct (burst_fires_once initial 0 [10; 59; 100]) as (H0 & Hb & Ha);
    [reflexivity | by_compute |].
  split; [exact H0|]. split.
  - apply (Hb 149). by_compute.
  - apply (Ha 150 900); by_compute.
Defined.

(** The manager never has more than one timeout pending: every
    [fireWithDebounce] clears the one it set before. *)
Theorem at_most_one_timeout_pending (evs : list Event) :
  length (pending (run evs initial)) ≤ 1.
Proof.
  assert (∀ s, (pending s = [] ∨ ∃ due, waiting due s) →
               pending (run evs s) = [] ∨ ∃ due, waiting due (run evs s))
    as Hrun.
  { induction evs as [|ev evs IH]; intros s Hs; [done|].
    apply IH. clear IH.
    assert (∀ now, pending (elapse now s) = []
                   ∨ ∃ due, waiting due (elapse now s)) as Hel.
    { intros now. destruct Hs as [Hnone|(due & Hw)].
      - left. unfold elapse. simpl. by rewrite Hnone.
      - destruct (decide (now < due)) as [Hlt|Hge].
        + right. exists due. by apply elapse_before.
        + left. apply (elapse_due due); [done | lia]. }
    destruct ev as [now|now]; [|apply Hel].
    right. exists (now + DELAY). by apply mutation_rearms. }
  destruct (Hrun initial) as [->|(due & h & -> & _)]; [by left|..]; simpl; lia.
Qed.

End DebounceFacts.

(** ** Further facts about diff-manager.ts and extension.ts *)

Module DiffCoverage.
Import Diff Extension DiffFacts.

(** *** Keys of the two maps *)

Section keys.
Context {V : Type}.
Implicit Types (m : Map V) (k : Uri) (v : V).

Lemma map_get_None_keys k m : map_get k m = None ↔ k ∉ keys m.
Proof.
  unfold keys. induction m as [|[k' v'] m IH]; simpl.
  - split; [intros _; apply not_elem_of_nil | done].
  - case_decide as Hk.
    + subst k'. split; [done|]. intros Hn. destruct Hn. by left.
    + rewrite IH. split.
      * intros Hn [?|?]%elem_of_cons; done.
      * intros Hn Hin. apply Hn. by right.
Qed.

Lemma keys_cons k v m : keys ((k, v) :: m) = k :: keys m.
Proof. done. Qed.

Lemma keys_map_set k v m :
  keys (map_set k v m) = if decide (k ∈ keys m) then keys m else keys m ++ [k].
Proof.
  induction m as [|[k' v'] m IH]; [done|].
  change (map_set k v ((k', v') :: m))
    with (if decide (k' = k) then (k, v) :: m else (k', v') :: map_set k v m).
  rewrite keys_cons. destruct (decide (k' = k)) as [->|Hk].
  - rewrite keys_cons. rewrite decide_True; [done | by left].
  - rewrite keys_cons, IH. destruct (decide (k ∈ keys m)) as [Hin|Hin].
    + rewrite decide_True; [done | by right].
    + rewrite decide_False; [done|].
      intros [?|?]%elem_of_cons; [by subst | done].
Qed.

Lemma keys_map_delete k m :
  keys (map_delete k m) = filter (λ k', k' ≠ k) (keys m).
Proof.
  unfold map_delete. induction m as [|[k' v'] m IH]; [done|].
  rewrite keys_cons, !filter_cons. simpl.
  case_decide; [rewrite keys_cons|]; by rewrite IH.
Qed.

Lemma map_get_delete_ne k k' m :
  k ≠ k' → map_get k' (map_delete k m) = map_get k' m.
Proof.
  intros Hne. unfold map_delete. induction m as [|[k0 v0] m IH]; [done|].
  destruct (decide (k0 = k)) as [->|Hk0].
  - rewrite filter_cons_False by (simpl; by intros Hk).
    simpl. by rewrite decide_False.
  - rewrite filter_cons_True by done. simpl. by rewrite IH.
Qed.

Lemma map_delete_absent k m : map_get k m = None → map_delete k m = m.
Proof.
  unfold map_delete. induction m as [|[k0 v0] m IH]; [done|].
  simpl. case_decide as Hk0; [done|]. intros Hm.
  rewrite filter_cons_True by done. by rewrite IH.
Qed.

Lemma Forall_map_set (P : Uri * V → Prop) k v m :
  P (k, v) → Forall P m → Forall P (map_set k v m).
Proof.
  intros Hkv. induction 1 as [|[k' v'] m Hk' Hm IH]; simpl.
  - by apply Forall_singleton.
  - case_decide; apply Forall_cons; split; done.
Qed.

Lemma Forall_map_delete (P : Uri * V → Prop) k m :
  Forall P m → Forall P (map_delete k m).
Proof.
  intros Hm. unfold map_delete. apply Forall_forall.
  intros x [_ Hx]%list_elem_of_filter. by eapply Forall_forall in Hm.
Qed.
End keys.


(** *** What each operation does to the cache and the table *)

Lemma openTextDocument_tables u s :
  content (openTextDocument u s).2 = content s
  ∧ diffDocuments (openTextDocument u s).2 = diffDocuments s
  ∧ fired (openTextDocument u s).2 = fired s
  ∧ tabs (openTextDocument u s).2 = tabs s.
Proof. unfold openTextDocument. by destruct (map_get u (documents s)). Qed.

Lemma closeDiffEditor_tables u s :
  match map_get u (diffDocuments s) with
  | Some _ =>
      content (closeDiffEditor u s) = map_delete u (content s)
      ∧ diffDocuments (closeDiffEditor u s) = map_delete u (diffDocuments s)
  | None =>
      content (closeDiffEditor u s) = content s
      ∧ diffDocuments (closeDiffEditor u s) = diffDocuments s
  end
  ∧ fired (closeDiffEditor u s) = fired s
  ∧ documents (closeDiffEditor u s) = documents s
  ∧ tabs (closeDiffEditor u s) = close_tab u (tabs s)
  ∧ isVisible (closeDiffEditor u s) = false.
Proof.
  unfold closeDiffEditor. by destruct (map_get u (diffDocuments s)).
Qed.

(** Tearing a registered diff down after reading its surface. *)
Lemma teardown u s info :
  map_get u (diffDocuments s) = Some info →
  let s2 := closeDiffEditor u (openTextDocument u s).2 in
  content s2 = map_delete u (content s)
  ∧ diffDocuments s2 = map_delete u (diffDocuments s)
  ∧ fired s2 = fired s
  ∧ tabs s2 = close_tab u (tabs s)
  ∧ isVisible s2 = false.
Proof.
  intros Hinfo s2.
  destruct (openTextDocument_tables u s) as (Hc & Hd & Hf & Ht).
  pose proof (closeDiffEditor_tables u (openTextDocument u s).2) as Hclose.
  rewrite Hd, Hinfo in Hclose.
  destruct Hclose as ([Hc' Hd'] & Hf' & _ & Ht' & Hv).
  subst s2. rewrite Hc', Hd', Hf', Ht', Hc, Hf, Ht. done.
Qed.

Lemma acceptDiff_registered u s info :
  map_get u (diffDocuments s) = Some info →
  acceptDiff u s
  = fire (DiffAccepted (originalFilePath info) (surface u s))
      (closeDiffEditor u (openTextDocument u s).2).
Proof.
  intros Hinfo. unfold acceptDiff, surface. rewrite Hinfo.
  by destruct (openTextDocument u s).
Qed.

Lemma cancelDiff_registered u s info :
  map_get u (diffDocuments s) = Some info →
  cancelDiff u s
  = fire (DiffClosed (originalFilePath info) (surface u s))
      (closeDiffEditor u (openTextDocument u s).2).
Proof.
  intros Hinfo. unfold cancelDiff, surface. rewrite Hinfo.
  by destruct (openTextDocument u s).
Qed.

Lemma acceptDiff_tables u s : tables_step s (acceptDiff u s).
Proof.
  destruct (map_get u (diffDocuments s)) as [info|] eqn:Hinfo.
  - rewrite (acceptDiff_registered u s info Hinfo).
    destruct (teardown u s info Hinfo) as (Hc & Hd & _).
    right. left. exists u. by split.
  - left. by rewrite acceptDiff_unknown.
Qed.

Lemma cancelDiff_tables u s : tables_step s (cancelDiff u s).
Proof.
  destruct (map_get u (diffDocuments s)) as [info|] eqn:Hinfo.
  - rewrite (cancelDiff_registered u s info Hinfo).
    destruct (teardown u s info Hinfo) as (Hc & Hd & _).
    right. left. exists u. by split.
  - left. unfold cancelDiff. rewrite Hinfo.
    pose proof (closeDiffEditor_tables u s) as Hclose.
    rewrite Hinfo in Hclose. by destruct Hclose as [[? ?] _].
Qed.

(** What [closeDiff] does when it finds a diff for the path. *)
Lemma closeDiff_found p b s i u info :
  list_find (λ kv, originalFilePath kv.2 = p) (diffDocuments s)
  = Some (i, (u, info)) →
  closeDiff p b s
  = (Some (surface u s),
     if b then closeDiffEditor u (openTextDocument u s).2
     else fire (DiffClosed p (surface u s))
            (closeDiffEditor u (openTextDocument u s).2)).
Proof.
  intros Hfind. unfold closeDiff, surface. rewrite Hfind.
  by destruct (openTextDocument u s).
Qed.

(** The identifier [closeDiff] finds is registered. *)
Lemma list_find_registered p s i u info :
  NoDup (keys (diffDocuments s)) →
  list_find (λ kv, originalFilePath kv.2 = p) (diffDocuments s)
  = Some (i, (u, info)) →
  map_get u (diffDocuments s) = Some info.
Proof.
  intros Hnd (Hi & _ & _)%list_find_Some. revert i Hi Hnd.
  induction (diffDocuments s) as [|[k v] m IH]; intros i Hi Hnd; [done|].
  rewrite keys_cons in Hnd. apply NoDup_cons in Hnd as [Hk Hnd].
  simpl. destruct i as [|i]; simpl in Hi.
  - injection Hi as -> ->. by rewrite decide_True.
  - rewrite decide_False; [by eapply IH|]. intros ->. apply Hk.
    apply (list_elem_of_fmap_2' fst _ (u, info)); [|done].
    by eapply list_elem_of_lookup_2.
Qed.

Lemma closeDiff_tables p b s :
  NoDup (keys (diffDocuments s)) → tables_step s (closeDiff p b s).2.
Proof.
  intros Hnd.
  destruct (list_find (λ kv, originalFilePath kv.2 = p) (diffDocuments s))
    as [[i [u info]]|] eqn:Hfind.
  - rewrite (closeDiff_found p b s i u info Hfind). simpl.
    pose proof (list_find_registered p s i u info Hnd Hfind) as Hinfo.
    destruct (teardown u s info Hinfo) as (Hc & Hd & _).
    right. left. exists u. by destruct b.
  - left. unfold closeDiff. by rewrite Hfind.
Qed.

Lemma showDiff_tables p c r e s : tables_step s (showDiff p c r e s).
Proof.
  destruct (begins_with_two_slashes p) eqn:Hp;
    [left; by rewrite (showDiff_refused p c r e s Hp)|].
  right. right. exists (right_uri p r), c, (mkDiffInfo p c (right_uri p r)).
  split_and!; [|by apply showDiff_diffDocuments|done].
  rewrite (showDiff_accepted p c r e s Hp).
  unfold vscode_diff, openTextDocument. simpl.
  destruct (map_get _ (documents s)) eqn:Hdoc; simpl;
    repeat (rewrite ?map_get_set_eq, ?Hdoc; simpl); done.
Qed.

Lemma step_tables s ev :
  NoDup (keys (diffDocuments s)) → tables_step s (step s ev).
Proof.
  intros Hnd. destruct ev as [p c r e|p b|uri a|uri a|u|u text|ed]; simpl.
  - apply showDiff_tables.
  - by apply closeDiff_tables.
  - unfold accept_command. destruct (docUri uri a) as [u|]; [|by left].
    case_decide; [apply acceptDiff_tables | by left].
  - unfold cancel_command. destruct (docUri uri a) as [u|]; [|by left].
    case_decide; [apply cancelDiff_tables | by left].
  - unfold onDidCloseTextDocument. case_decide; [|by left].
    apply (cancelDiff_tables u
             {| content := content s; diffDocuments := diffDocuments s;
                fired := fired s; documents := map_delete u (documents s);
                tabs := tabs s; isVisible := isVisible s |}).
  - left. unfold userEdit. by destruct (map_get u (documents s)).
  - by left.
Qed.

Lemma map_get_Some_elem {V} (m : Map V) k v :
  NoDup (keys m) → map_get k m = Some v ↔ (k, v) ∈ m.
Proof.
  induction m as [|[k' v'] m IH]; intros Hnd.
  - split; [done|]. by intros ?%elem_of_nil.
  - rewrite keys_cons in Hnd. apply NoDup_cons in Hnd as [Hk Hnd].
    simpl. rewrite elem_of_cons. case_decide as Hkk.
    + subst k'. split.
      * intros [= ->]. by left.
      * intros [[= ->]|Hin]; [done|]. exfalso. apply Hk.
        by apply (list_elem_of_fmap_2' fst _ (k, v)).
    + rewrite (IH Hnd). split; [by right|]. by intros [[= -> ->]|?].
Qed.

(** *** The cache and the table hold the same identifiers *)

Lemma consistent_step s s' : consistent s → tables_step s s' → consistent s'.
Proof.
  intros (Hk & Hnd & Hwf) [[Hc Hd]|[(u & Hc & Hd)|(u & c & info & Hc & Hd & Hu)]].
  - unfold consistent. by rewrite Hc, Hd.
  - unfold consistent. rewrite Hc, Hd, !keys_map_delete, Hk.
    split_and!; [done | by apply NoDup_filter | by apply Forall_map_delete].
  - unfold consistent. rewrite Hc, Hd, !keys_map_set, Hk.
    split_and!; [done | | by apply Forall_map_set].
    case_decide as Hin; [done|].
    apply NoDup_app. split_and!; [done | | apply NoDup_singleton].
    intros k Hk' ->%list_elem_of_singleton. done.
Qed.

Lemma consistent_run evs : consistent (run evs empty).
Proof.
  assert (∀ s, consistent s → consistent (run evs s)) as Hrun.
  { induction evs as [|ev evs IH]; intros s Hs; [done|].
    apply IH. eapply consistent_step; [done|].
    apply step_tables. by destruct Hs as (_ & ? & _). }
  apply Hrun. split_and!; [done | apply NoDup_nil_2 | apply Forall_nil_2].
Qed.

Lemma cached_iff_registered evs u :
  is_Some (getContent u (run evs empty))
  ↔ is_Some (map_get u (diffDocuments (run evs empty))).
Proof.
  destruct (consistent_run evs) as (Hk & _ & _). unfold getContent.
  rewrite <- !not_eq_None_Some, !map_get_None_keys, Hk. done.
Qed.

(** Every identifier of the table has the scheme [gemini-diff]. *)
Lemma registered_table_entry evs u info :
  map_get u (diffDocuments (run evs empty)) = Some info →
  scheme u = DIFF_SCHEME.
Proof.
  destruct (consistent_run evs) as (_ & Hnd & Hwf). intros Hu.
  apply map_get_Some_elem in Hu; [|done].
  eapply Forall_forall in Hwf; [|done]. exact Hwf.
Qed.

(** Whatever the tools, the commands and the user do, the content cache
    and the table of diffs hold the same identifiers in the same order,
    each once: a diff is registered exactly when its proposed content is
    cached. *)
Theorem cache_and_table_agree (evs : list Event) (u : Uri) :
  keys (content (run evs empty)) = keys (diffDocuments (run evs empty))
  ∧ NoDup (keys (diffDocuments (run evs empty)))
  ∧ (is_Some (getContent u (run evs empty))
     ↔ is_Some (map_get u (diffDocuments (run evs empty)))).
Proof.
  destruct (consistent_run evs) as (Hk & Hnd & _).
  split_and!; [done..|]. apply cached_iff_registered.
Qed.

(** *** Cancelling, closing by path, closing the document *)



Lemma cancelDiff_unregistered u s :
  map_get u (diffDocuments s) = None →
  fired (cancelDiff u s) = fired s
  ∧ diffDocuments (cancelDiff u s) = diffDocuments s
  ∧ content (cancelDiff u s) = content s
  ∧ documents (cancelDiff u s) = documents s.
Proof.
  intros Hinfo. unfold cancelDiff. rewrite Hinfo.
  pose proof (closeDiffEditor_tables u s) as Hclose. rewrite Hinfo in Hclose.
  by destruct Hclose as ([Hc Hd] & Hf & Hdoc & _).
Qed.

Lemma cancelDiff_editor u s :
  tabs (cancelDiff u s) = close_tab u (tabs s)
  ∧ isVisible (cancelDiff u s) = false.
Proof.
  destruct (map_get u (diffDocuments s)) as [info|] eqn:Hinfo.
  - rewrite (cancelDiff_registered u s info Hinfo).
    by destruct (teardown u s info Hinfo) as (_ & _ & _ & Ht & Hv).
  - unfold cancelDiff. rewrite Hinfo.
    by destruct (closeDiffEditor_tables u s) as (_ & _ & _ & Ht & Hv).
Qed.

(** Cancelling a registered diff fires one [ide/diffClosed] notification
    with the file path of the diff and the current text of its surface,
    removes the diff from the table and its content from the cache, closes
    its tab and clears the context key; cancelling it again fires nothing.
    Cancelling an identifier that is not registered fires nothing and
    leaves table, cache and documents alone, but still closes the first tab
    showing the identifier and clears the context key. *)
Theorem cancel_reports_and_removes (s : Diff.t) (u : Uri) :
  let s1 := cancelDiff u s in
  tabs s1 = close_tab u (tabs s)
  ∧ isVisible s1 = false
  ∧ match map_get u (diffDocuments s) with
    | Some info =>
        fired s1 = fired s ++ [DiffClosed (originalFilePath info) (surface u s)]
        ∧ map_get u (diffDocuments s1) = None
        ∧ getContent u s1 = None
        ∧ fired (cancelDiff u s1) = fired s1
    | None =>
        fired s1 = fired s
        ∧ diffDocuments s1 = diffDocuments s
        ∧ content s1 = content s
        ∧ documents s1 = documents s
    end.
Proof.
  intros s1. destruct (cancelDiff_editor u s) as [Ht Hv].
  split_and!; [done..|].
  destruct (map_get u (diffDocuments s)) as [info|] eqn:Hinfo;
    [|by apply cancelDiff_unregistered].
  assert (map_get u (diffDocuments s1) = None) as Hgone.
  { subst s1. rewrite (cancelDiff_registered u s info Hinfo).
    destruct (teardown u s info Hinfo) as (_ & Hd & _).
    cbn [fire diffDocuments]. rewrite Hd. apply map_get_delete_eq. }
  split_and!; [| done | | by apply cancelDiff_unregistered].
  - subst s1. rewrite (cancelDiff_registered u s info Hinfo).
    destruct (teardown u s info Hinfo) as (_ & _ & Hf & _).
    cbn [fire fired]. by rewrite Hf.
  - subst s1. rewrite (cancelDiff_registered u s info Hinfo).
    destruct (teardown u s info Hinfo) as (Hc & _).
    unfold getContent. cbn [fire content]. rewrite Hc.
    apply map_get_delete_eq.
Qed.

(** [closeDiff] on the states the events lead to. When no registered diff
    is for the path it returns nothing and changes nothing. Otherwise it
    takes the diff registered first for the path, returns the current text
    of its surface, reports [ide/diffClosed] with that text unless the
    notification is suppressed, and removes that one identifier from the
    table and the cache: any other diff, also one for the same path, stays
    registered. *)
Theorem close_by_path (evs : list Event) (p : string) (b : bool) :
  let s := run evs empty in
  match closeDiff p b s with
  | (None, s') =>
      s' = s ∧ Forall (λ kv, originalFilePath kv.2 ≠ p) (diffDocuments s)
  | (Some text, s') =>
      ∃ i u info,
        diffDocuments s !! i = Some (u, info)
        ∧ originalFilePath info = p
        ∧ (∀ j kv, diffDocuments s !! j = Some kv → j < i →
             originalFilePath kv.2 ≠ p)
        ∧ text = surface u s
        ∧ fired s' = fired s ++ (if b then [] else [DiffClosed p text])
        ∧ diffDocuments s' = map_delete u (diffDocuments s)
        ∧ content s' = map_delete u (content s)
        ∧ (∀ v, v ≠ u →
             map_get v (diffDocuments s') = map_get v (diffDocuments s))
  end.
Proof.
  intros s. destruct (consistent_run evs) as (_ & Hnd & _). fold s in Hnd.
  destruct (list_find (λ kv, originalFilePath kv.2 = p) (diffDocuments s))
    as [[i [u info]]|] eqn:Hfind.
  - rewrite (closeDiff_found p b s i u info Hfind).
    pose proof (list_find_registered p s i u info Hnd Hfind) as Hinfo.
    destruct (teardown u s info Hinfo) as (Hc & Hd & Hf & _).
    apply list_find_Some in Hfind as (Hi & Hp & Hbefore).
    exists i, u, info. split_and!; [done|done| |done|..].
    + intros j kv Hj Hlt. by eapply Hbefore.
    + destruct b; cbn [fire fired]; rewrite Hf; [by rewrite app_nil_r | done].
    + by destruct b.
    + by destruct b.
    + intros v Hv. destruct b; cbn [fire diffDocuments]; rewrite Hd;
        by apply map_get_delete_ne.
  - unfold closeDiff. rewrite Hfind. split; [done|].
    by apply list_find_None in Hfind.
Qed.

(** Once a diff has been accepted or cancelled, the editor closing its
    document reports nothing more and changes neither table nor cache. *)
Theorem closing_after_decision_is_silent (s : Diff.t) (u : Uri)
    (info : DiffInfo) (accepted : bool) :
  map_get u (diffDocuments s) = Some info →
  let s1 := if accepted then acceptDiff u s else cancelDiff u s in
  let s2 := onDidCloseTextDocument u s1 in
  length (fired s1) = S (length (fired s))
  ∧ fired s2 = fired s1
  ∧ diffDocuments s2 = diffDocuments s1
  ∧ content s2 = content s1.
Proof.
  intros Hinfo s1 s2.
  destruct (teardown u s info Hinfo) as (Hc & Hd & Hf & _).
  assert (map_get u (diffDocuments s1) = None ∧ length (fired s1) = S (length (fired s)))
    as [Hgone Hlen].
  { subst s1. destruct accepted;
      [rewrite (acceptDiff_registered u s info Hinfo)
      |rewrite (cancelDiff_registered u s info Hinfo)];
      cbn [fire fired diffDocuments]; rewrite Hd, Hf, length_app; simpl;
      (split; [apply map_get_delete_eq | lia]). }
  split; [done|]. subst s2. unfold onDidCloseTextDocument.
  case_decide; [|done].
  set (s1' := {| content := content s1; diffDocuments := diffDocuments s1;
                 fired := fired s1; documents := map_delete u (documents s1);
                 tabs := tabs s1; isVisible := isVisible s1 |}).
  by destruct (cancelDiff_unregistered u s1' Hgone) as (? & ? & ? & _).
Qed.

Lemma closing_after_decision_witness :
  let s := showDiff "a.txt" "x" "0.5" true empty in
  let s1 := acceptDiff (right_uri "a.txt" "0.5") s in
  let s2 := onDidCloseTextDocument (right_uri "a.txt" "0.5") s1 in
  length (fired s1) = S (length (fired s))
  ∧ fired s2 = fired s1
  ∧ diffDocuments s2 = diffDocuments s1
  ∧ content s2 = content s1.
Proof.
  exact (closing_after_decision_is_silent
           (showDiff "a.txt" "x" "0.5" true empty) (right_uri "a.txt" "0.5")
           (mkDiffInfo "a.txt" "x" (right_uri "a.txt" "0.5")) true eq_refl).
Defined.

(** When the editor closes a document, on the states the events lead to:
    if the document is the surface of a registered diff, the diff is
    reported closed with the content the provider holds for it (the editor
    no longer holds the document, so what was typed there is not read) and
    is removed from table and cache; for any other document nothing is
    reported and table and cache stay as they are. *)
Theorem closing_the_document_cancels (evs : list Event) (u : Uri) :
  let s := run evs empty in
  let s' := onDidCloseTextDocument u s in
  match map_get u (diffDocuments s) with
  | Some info =>
      fired s'
      = fired s ++ [DiffClosed (originalFilePath info)
                      (provideTextDocumentContent u s)]
      ∧ getContent u s = Some (provideTextDocumentContent u s)
      ∧ map_get u (diffDocuments s') = None
      ∧ getContent u s' = None
  | None =>
      fired s' = fired s
      ∧ diffDocuments s' = diffDocuments s
      ∧ content s' = content s
  end.
Proof.
  intros s s'.
  set (s1 := {| content := content s; diffDocuments := diffDocuments s;
                fired := fired s; documents := map_delete u (documents s);
                tabs := tabs s; isVisible := isVisible s |}).
  destruct (map_get u (diffDocuments s)) as [info|] eqn:Hinfo.
  - pose proof (registered_table_entry evs u info Hinfo) as Hscheme.
    assert (s' = cancelDiff u s1) as ->.
    { subst s'. unfold onDidCloseTextDocument. by rewrite decide_True. }
    assert (map_get u (diffDocuments s1) = Some info) as Hinfo1 by done.
    rewrite (cancelDiff_registered u s1 info Hinfo1).
    destruct (teardown u s1 info Hinfo1) as (Hc & Hd & Hf & _).
    assert (surface u s1 = provideTextDocumentContent u s) as ->.
    { unfold surface, openTextDocument. cbn [documents s1].
      by rewrite map_get_delete_eq. }
    assert (is_Some (getContent u s)) as [c Hcached].
    { apply (cached_iff_registered evs u). by exists info. }
    split_and!.
    + cbn [fire fired]. by rewrite Hf.
    + unfold provideTextDocumentContent. unfold getContent in Hcached.
      unfold getContent. by rewrite Hcached.
    + cbn [fire diffDocuments]. rewrite Hd. apply map_get_delete_eq.
    + unfold getContent. cbn [fire content]. rewrite Hc.
      apply map_get_delete_eq.
  - subst s'. unfold onDidCloseTextDocument. case_decide; [|done].
    fold s1. by destruct (cancelDiff_unregistered u s1 Hinfo) as (? & ? & ? & _).
Qed.

(** *** Diffs do not disturb each other *)





(** *** The two commands *)

(** On the states the events lead to, the accept command does for any
    identifier what [acceptDiff] does, whether the identifier comes as the
    argument or from the active editor: the test of the scheme never keeps
    a registered diff from being accepted. The cancel command does what
    [cancelDiff] does for every registered diff; without an identifier
    neither command does anything. *)
Theorem commands_reach_registered_diffs (evs : list Event) (u : Uri)
    (active : option Uri) :
  let s := run evs empty in
  accept_command (Some u) active s = acceptDiff u s
  ∧ accept_command None (Some u) s = acceptDiff u s
  ∧ accept_command None None s = s
  ∧ cancel_command None None s = s
  ∧ (is_Some (map_get u (diffDocuments s)) →
       cancel_command (Some u) active s = cancelDiff u s
       ∧ cancel_command None (Some u) s = cancelDiff u s).
Proof.
  intros s. unfold accept_command, cancel_command. cbn [docUri].
  split_and!; [| |done|done|].
  - case_decide as Hs; [done|].
    destruct (map_get u (diffDocuments s)) as [info|] eqn:Hinfo.
    + by pose proof (registered_table_entry evs u info Hinfo).
    + by rewrite acceptDiff_unknown.
  - case_decide as Hs; [done|].
    destruct (map_get u (diffDocuments s)) as [info|] eqn:Hinfo.
    + by pose proof (registered_table_entry evs u info Hinfo).
    + by rewrite acceptDiff_unknown.
  - intros [info Hinfo].
    pose proof (registered_table_entry evs u info Hinfo) as Hs.
    by rewrite decide_True.
Qed.

(** *** The content provider *)


(** *** Every diff is reported at most once *)






(** A call run to its end is its lookup followed by the rest. *)
Lemma calls_run_to_their_end u s :
  acceptDiff u s
  = match map_get u (diffDocuments s) with
    | Some info => acceptDiff_resume u info s
    | None => s
    end
  ∧ cancelDiff u s
    = match map_get u (diffDocuments s) with
      | Some info => cancelDiff_resume u info s
      | None => closeDiffEditor u s
      end.
Proof. done. Qed.

(** Two calls for one diff that overlap, each having done its lookup
    before the other went on, both report: the bound below is for calls
    that do not overlap. *)
Lemma overlapping_calls_report_twice u info s (first second : bool) :
  let resume (accepted : bool) :=
    if accepted then acceptDiff_resume u info else cancelDiff_resume u info in
  length (fired (resume second (resume first s))) = length (fired s) + 2.
Proof.
  intros resume.
  assert (∀ b s0, length (fired (resume b s0)) = length (fired s0) + 1)
    as Hone.
  { intros b s0. subst resume. destruct b; simpl;
      unfold acceptDiff_resume, cancelDiff_resume;
      destruct (openTextDocument u s0) as [text s1] eqn:Hopen;
      cbn [fire fired]; rewrite length_app;
      destruct (closeDiffEditor_tables u s1) as (_ & -> & _);
      destruct (openTextDocument_tables u s0) as (_ & _ & Hf & _);
      rewrite Hopen in Hf; simpl in Hf; rewrite Hf; simpl; lia. }
  rewrite !Hone. lia.
Qed.

End DiffCoverage.

(** ** Further facts about ide-server.ts *)

Module ServerCoverage.
Import Server ServerNotions ServerFacts.

(** *** Which requests reach the routes *)






(** *** Broadcasts *)

Lemma send_received m ms tr :
  send m (received ms tr) = received (ms ++ [m]) tr.
Proof. unfold send, received. simpl. by rewrite app_assoc. Qed.

Lemma foldr_send_lookup m (rs : list nat) (o : list Transport) (i : nat) :
  foldr (λ r o, alter (send m) r o) o rs !! i
  = received (replicate (length (filter (λ r', r' = i) rs)) m) <$> o !! i.
Proof.
  induction rs as [|r rs IH]; simpl.
  - destruct (o !! i) as [tr|]; [|done]. simpl. f_equal.
    unfold received. destruct tr; simpl. by rewrite app_nil_r.
  - rewrite filter_cons. case_decide as Hr.
    + subst r. rewrite list_lookup_alter_eq, IH.
      destruct (o !! i) as [tr|]; [|done]. simpl.
      by rewrite send_received, <- replicate_S_end.
    + by rewrite list_lookup_alter_ne, IH.
Qed.

Lemma length_foldr_send m (rs : list nat) (o : list Transport) :
  length (foldr (λ r o, alter (send m) r o) o rs) = length o.
Proof.
  induction rs as [|r rs IH]; [done|]. simpl. by rewrite length_alter.
Qed.

Lemma broadcast_lookup m s r :
  objs (broadcast m s) !! r
  = received (replicate (sessions_on r s) m) <$> objs s !! r.
Proof. unfold broadcast, sessions_on. simpl. apply foldr_send_lookup. Qed.

Lemma length_broadcast m s : length (objs (broadcast m s)) = length (objs s).
Proof. unfold broadcast. simpl. apply length_foldr_send. Qed.

Lemma transports_broadcast m s : transports (broadcast m s) = transports s.
Proof. done. Qed.

Lemma sessions_on_pos r s :
  0 < sessions_on r s ↔ ∃ sid, transports s !! sid = Some r.
Proof.
  unfold sessions_on.
  assert (∀ rs : list nat, 0 < length (filter (λ r', r' = r) rs) ↔ r ∈ rs)
    as ->.
  { induction rs as [|r' rs IH]; simpl.
    - rewrite elem_of_nil. split; [lia|done].
    - rewrite filter_cons, elem_of_cons. case_decide; simpl.
      + subst r'. split; [by left|lia].
      + rewrite IH. split; [by right|]. by intros [->|?]. }
  rewrite list_elem_of_fmap. split.
  - intros ([sid r'] & -> & Hin). exists sid.
    by apply elem_of_map_to_list in Hin.
  - intros (sid & Hsid). exists (sid, r). split; [done|].
    by apply elem_of_map_to_list.
Qed.

(** *** Every session of the table has a transport *)

Lemma length_with_diffManager d s :
  length (objs (with_diffManager d s)) = length (objs s).
Proof.
  unfold with_diffManager.
  generalize (drop (length (Diff.fired (diffManager s))) (Diff.fired d)).
  intros new. change (objs s) with (objs (set_diffManager d s)).
  generalize (set_diffManager d s). clear s.
  induction new as [|n new IH]; intros s; [done|]. simpl.
  by rewrite IH, length_broadcast.
Qed.

Lemma indexed_same s s' :
  transports s' = transports s → length (objs s') = length (objs s) →
  indexed s → indexed s'.
Proof. intros Ht Hl Hs sid r. rewrite Ht, Hl. apply Hs. Qed.

Lemma callback_indexed r s c :
  r < length (objs s) → indexed s →
  indexed (callback r s c) ∧ length (objs (callback r s c)) = length (objs s).
Proof.
  intros Hr Hs. destruct c as [sid| |p c rand e|p b]; simpl.
  - rewrite length_alter. split; [|done]. intros sid' r'. simpl.
    rewrite length_alter.
    destruct (decide (sid = sid')) as [->|Hne].
    + rewrite lookup_insert_eq. by intros [= <-].
    + rewrite lookup_insert_ne by done. apply Hs.
  - unfold onclose. destruct (truthy _); simpl; rewrite length_alter;
      (split; [|done]); intros sid' r'; simpl; rewrite length_alter;
      [|apply Hs].
    intros [_ Hin]%lookup_delete_Some. by eapply Hs.
  - rewrite length_with_diffManager. split; [|done].
    eapply indexed_same; [apply transports_with_diffManager
                         |apply length_with_diffManager|done].
  - rewrite length_with_diffManager. split; [|done].
    eapply indexed_same; [apply transports_with_diffManager
                         |apply length_with_diffManager|done].
Qed.

Lemma callbacks_indexed r cs s :
  r < length (objs s) → indexed s →
  indexed (foldl (callback r) s cs)
  ∧ length (objs (foldl (callback r) s cs)) = length (objs s).
Proof.
  revert s. induction cs as [|c cs IH]; intros s Hr Hs; [done|]. simpl.
  destruct (callback_indexed r s c Hr Hs) as [Hs' Hl].
  destruct (IH (callback r s c)) as [Hs'' Hl'']; [lia|done|].
  split; [done|]. by rewrite Hl'', Hl.
Qed.

Lemma transports_get_Own m k r :
  transports_get m k = Some (Own r) → m !! k = Some r.
Proof.
  unfold transports_get. destruct (m !! k); [by intros [= ->]|].
  by case_decide.
Qed.

Lemma post_handle_indexed p run s :
  (∀ r, p = Own r → r < length (objs s)) → indexed s →
  indexed (post_handle p run s).2.
Proof.
  intros Hp Hs. unfold post_handle. destruct p as [r|name]; [|done].
  destruct (callbacks_indexed r (callbacks run) s) as [Hs' _];
    [by apply Hp|done|].
  by destruct (ending run) as [resp|[resp|]].
Qed.

Lemma handle_request_indexed req run s :
  indexed s → indexed (handle_request req run s).2.
Proof.
  intros Hs. unfold handle_request.
  destruct (cors req); [done|]. destruct (check_host s req); [done|].
  destruct (check_auth s req); [done|]. unfold route.
  case_decide; [|done]. destruct (method req); try done.
  - unfold get_mcp.
    destruct (if truthy _ then _ else _) as [[r|name]|] eqn:Hget; [|done..].
    destruct (truthy (mcp_session_id req)); [|done].
    apply transports_get_Own, Hs in Hget.
    destruct (callbacks_indexed r (callbacks run) s Hget Hs) as [Hs' Hl].
    cbn [snd]. case_decide; [done|].
    intros sid r'. simpl. rewrite length_alter. apply Hs'.
  - unfold post_mcp.
    destruct (if truthy _ then _ else _) as [p|] eqn:Hget.
    + apply post_handle_indexed; [|done]. intros r ->.
      destruct (truthy (mcp_session_id req)); [|done].
      by apply transports_get_Own, Hs in Hget.
    + destruct (negb _ && _); [|done].
      apply post_handle_indexed.
      * intros r [= <-]. simpl. rewrite length_app. simpl. lia.
      * intros sid r Hsid. simpl. rewrite length_app.
        apply Hs in Hsid. lia.
Qed.

Lemma step_indexed s ev : indexed s → indexed (step s ev).
Proof.
  intros Hs. destruct ev as [req run|r d|r|ev| |u|u]; simpl.
  - by apply handle_request_indexed.
  - eapply indexed_same; [apply keepAlive_tick_transports| |done].
    unfold keepAlive_tick. destruct (objs s !! r) as [tr|]; [|done].
    destruct (keepAlive tr); [|done]. simpl. by rewrite length_insert.
  - unfold onclose. destruct (truthy _); simpl;
      intros sid' r'; simpl; rewrite length_alter; [|apply Hs].
    intros [_ Hin]%lookup_delete_Some. by eapply Hs.
  - done.
  - apply (indexed_same s); [done|apply length_broadcast|done].
  - eapply indexed_same; [apply transports_with_diffManager
                         |apply length_with_diffManager|done].
  - eapply indexed_same; [apply transports_with_diffManager
                         |apply length_with_diffManager|done].
Qed.

Lemma run_indexed evs s : indexed s → indexed (run evs s).
Proof.
  revert s. induction evs as [|ev evs IH]; intros s Hs; [done|].
  apply IH. by apply step_indexed.
Qed.

(** In every state a started server gets into, each session of the table
    has its transport; a broadcast appends the message to that transport
    once for each session id the table holds it under, hence at least
    once, and a transport that is in the table under no session id gets
    nothing. The broadcast changes nothing but what the transports were
    sent. *)
Theorem broadcast_reaches_every_session (evs : list Event) (p : N)
    (token : string) (trusted : bool) (active : option TextEditor)
    (now : nat) (m : Message) :
  let s := run evs (start p token trusted active now) in
  (∀ sid r, transports s !! sid = Some r →
     ∃ tr, objs s !! r = Some tr
           ∧ 0 < sessions_on r s
           ∧ objs (broadcast m s) !! r
             = Some (received (replicate (sessions_on r s) m) tr))
  ∧ (∀ r, (∀ sid, transports s !! sid ≠ Some r) →
       objs (broadcast m s) !! r = objs s !! r)
  ∧ transports (broadcast m s) = transports s
  ∧ diffManager (broadcast m s) = diffManager s
  ∧ openFilesManager (broadcast m s) = openFilesManager s.
Proof.
  intros s.
  assert (indexed s) as Hs by (apply run_indexed; intros sid r; done).
  split_and!; [| |done..].
  - intros sid r Hsid.
    destruct (lookup_lt_is_Some_2 (objs s) r) as [tr Htr]; [by eapply Hs|].
    exists tr. split_and!; [done| |].
    + apply sessions_on_pos. by exists sid.
    + by rewrite broadcast_lookup, Htr.
  - intros r Hr. rewrite broadcast_lookup.
    assert (sessions_on r s = 0) as ->.
    { destruct (sessions_on r s) eqn:Hn; [done|].
      assert (0 < sessions_on r s) as [sid Hsid]%sessions_on_pos by lia.
      by destruct (Hr sid). }
    destruct (objs s !! r) as [tr|]; [|done]. simpl. f_equal.
    unfold received. destruct tr; simpl. by rewrite app_nil_r.
Qed.

(** *** Sessions *)

Lemma admitted_route s req run :
  admitted s req → handle_request req run s = route req run s.
Proof.
  intros (Hc & Hh & Ha). unfold handle_request. by rewrite Hc, Hh, Ha.
Qed.

Lemma truthy_Some sid : sid ≠ "" → truthy (Some sid) = true.
Proof. intros Hne. unfold truthy. by rewrite bool_decide_eq_false_2. Qed.

(** An admitted POST to [/mcp] without session id whose body is an
    initialization creates a transport with its keep-alive interval set
    and no missed ping; when the SDK then reports the session id it
    generated, the table holds the new transport under that id and nothing
    else is changed, and a later POST naming that id is handed to that
    transport. *)
Theorem initialize_opens_a_session (s : t) (req : Request) (run : SdkRun)
    (sid : string) (resp : Response) :
  admitted s req → method req = POST → url req = "/mcp" →
  truthy (mcp_session_id req) = false → body req = Initialize →
  callbacks run = [OnSessionInitialized sid] → ending run = Sent resp →
  let s' := (handle_request req run s).2 in
  (handle_request req run s).1 = resp
  ∧ objs s' = objs s ++ [mkTransport (Some sid) 0 true []]
  ∧ transports s' = <[sid := length (objs s)]> (transports s)
  ∧ sessionsWithInitialNotification s' = sessionsWithInitialNotification s
  ∧ diffManager s' = diffManager s
  ∧ openFilesManager s' = openFilesManager s
  ∧ (∀ req' run', admitted s' req' → method req' = POST →
       url req' = "/mcp" → mcp_session_id req' = Some sid → sid ≠ "" →
       handle_request req' run' s'
       = post_handle (Own (length (objs s))) run' s').
Proof.
  intros Hadm Hm Hu Hsid Hb Hcb Hend s'.
  assert (handle_request req run s
          = (resp,
             {| port := port s; authToken := authToken s;
                objs := objs s ++ [mkTransport (Some sid) 0 true []];
                transports := <[sid := length (objs s)]> (transports s);
                sessionsWithInitialNotification :=
                  sessionsWithInitialNotification s;
                diffManager := diffManager s;
                openFilesManager := openFilesManager s;
                isTrusted := isTrusted s |})) as Hreq.
  { rewrite (admitted_route s req run Hadm). unfold route, post_mcp.
    rewrite decide_True, Hm, Hsid, Hb by done. cbn [negb andb isInitializeRequest].
    unfold post_handle. rewrite Hcb, Hend. cbn [foldl callback].
    f_equal. unfold set_objs. cbn.
    f_equal. replace (length (objs s)) with (length (objs s) + 0) at 1 by lia.
    by rewrite alter_app_r. }
  subst s'. rewrite Hreq. cbn [fst snd objs transports diffManager
    openFilesManager sessionsWithInitialNotification].
  split_and!; [done..|].
  intros req' run' Hadm' Hm' Hu' Hsid' Hne.
  rewrite (admitted_route _ req' run' Hadm'). unfold route, post_mcp.
  rewrite decide_True, Hm', Hsid', (truthy_Some sid Hne) by done.
  cbn [transports from_option id]. unfold transports_get.
  by rewrite lookup_insert_eq.
Qed.

Lemma initialize_witness :
  transports server1 = {[ "sess-1" := 0 ]}
  ∧ objs server1 = [mkTransport (Some "sess-1") 0 true []].
Proof.
  destruct (initialize_opens_a_session server0
              (mkRequest POST "/mcp" None (Some "localhost:8080")
                 (Some "Bearer 0b5c") None Initialize)
              init_run "sess-1" (mkResponse 200 (FromTransport "initialized")))
    as (_ & Ho & Ht & _); try reflexivity.
  { split_and!; reflexivity. }
  split; [exact Ht | exact Ho].
Defined.

Lemma post_or_get_unknown s req run sid :
  admitted s req → url req = "/mcp" →
  names_session req sid → transports s !! sid = None →
  (method req = POST → handle_request req run s = (BadRequest, s))
  ∧ (method req = GET →
     handle_request req run s
     = (mkResponse 400 (Text "Invalid or missing session ID"), s)).
Proof.
  intros Hadm Hu (Hsid & Hne & Hproto) Hnone.
  rewrite (admitted_route s req run Hadm). unfold route.
  rewrite decide_True by done.
  split; intros ->; unfold post_mcp, get_mcp;
    rewrite Hsid, (truthy_Some sid Hne); cbn [from_option id];
    by rewrite (transports_get_None _ _ Hnone Hproto).
Qed.

(** A request that sends a session id the table does not hold (and that
    names no inherited member of the table) is answered 400 without any
    change, whether it is a GET or a POST, and also when its body is an
    initialization: no session is created under an id the client chose. *)
Theorem unknown_session_id_is_refused (s : t) (req : Request)
    (run : SdkRun) (sid : string) :
  admitted s req → url req = "/mcp" →
  names_session req sid → transports s !! sid = None →
  (method req = POST → handle_request req run s = (BadRequest, s))
  ∧ (method req = GET →
     handle_request req run s
     = (mkResponse 400 (Text "Invalid or missing session ID"), s)).
Proof. apply post_or_get_unknown. Qed.

Lemma unknown_session_id_witness :
  handle_request
    (mkRequest POST "/mcp" None (Some "localhost:8080")
       (Some "Bearer 0b5c") (Some "sess-9") Initialize) init_run server1
  = (BadRequest, server1).
Proof.
  refine (proj1 (unknown_session_id_is_refused server1
                   (mkRequest POST "/mcp" None (Some "localhost:8080")
                      (Some "Bearer 0b5c") (Some "sess-9") Initialize)
                   init_run "sess-9" _ _ _ _) _); try reflexivity.
  - split_and!; reflexivity.
  - split_and!; [reflexivity|done|by_compute].
Defined.

(** When a transport reports closure, requests that still name its
    session are refused with 400 and change nothing. *)
Theorem closed_session_is_refused (s : t) (r : nat) (tr : Transport)
    (sid : string) (req : Request) (run : SdkRun) :
  objs s !! r = Some tr → sessionId tr = Some sid →
  let s' := step s (Closed r) in
  admitted s' req → url req = "/mcp" → names_session req sid →
  method req = POST ∨ method req = GET →
  (handle_request req run s').2 = s'
  ∧ status (handle_request req run s').1 = 400.
Proof.
  intros Hr Htr s' Hadm Hu Hname Hm.
  assert (transports s' !! sid = None) as Hnone.
  { subst s'. simpl. unfold onclose.
    rewrite (list_lookup_total_correct _ _ _ Hr), Htr.
    destruct Hname as (_ & Hne & _). rewrite (truthy_Some sid Hne).
    simpl. apply lookup_delete_eq. }
  destruct (post_or_get_unknown s' req run sid Hadm Hu Hname Hnone)
    as [Hpost Hget].
  destruct Hm as [Hm|Hm]; [rewrite (Hpost Hm)|rewrite (Hget Hm)]; done.
Qed.

Lemma closed_session_witness :
  let s' := step server1 (Closed 0) in
  let req := mkRequest POST "/mcp" None (Some "localhost:8080")
               (Some "Bearer 0b5c") (Some "sess-1")
               (CallOpenDiff "a.txt" "x") in
  (handle_request req tool_run s').2 = s'
  ∧ status (handle_request req tool_run s').1 = 400.
Proof.
  intros s' req.
  apply (closed_session_is_refused server1 0
           (mkTransport (Some "sess-1") 0 true []) "sess-1" req tool_run);
    try reflexivity.
  - split_and!; reflexivity.
  - split_and!; [reflexivity|done|by_compute].
  - by left.
Defined.

(** *** The first context of a session *)

(** An admitted GET for a session of the table, during which the SDK
    calls nothing back: if the session has not had its first context, the
    current list of open files and the trust flag are sent over its
    transport, once, and the session is marked; if it has, nothing
    changes. Either way the session is marked afterwards, so repeating the
    request sends nothing more. *)
Theorem first_context_is_sent_once (s : t) (req : Request) (run : SdkRun)
    (sid : string) (r : nat) :
  admitted s req → method req = GET → url req = "/mcp" →
  mcp_session_id req = Some sid → sid ≠ "" →
  transports s !! sid = Some r → callbacks run = [] →
  let s' := (handle_request req run s).2 in
  sid ∈ sessionsWithInitialNotification s'
  ∧ transports s' = transports s
  ∧ (sid ∉ sessionsWithInitialNotification s →
       objs s'
       = alter (send (ContextUpdate (OFM.files (openFilesManager s))
                        (isTrusted s))) r (objs s))
  ∧ (sid ∈ sessionsWithInitialNotification s → s' = s)
  ∧ (∀ run', callbacks run' = [] → (handle_request req run' s').2 = s').
Proof.
  intros Hadm Hm Hu Hsid Hne Hr Hcb s'.
  assert (∀ s0 run0,
            admitted s0 req → transports s0 !! sid = Some r →
            callbacks run0 = [] →
            (handle_request req run0 s0).2
            = if decide (sid ∈ sessionsWithInitialNotification s0) then s0
              else
                {| port := port s0; authToken := authToken s0;
                   objs := alter (send (ContextUpdate
                                          (OFM.files (openFilesManager s0))
                                          (isTrusted s0))) r (objs s0);
                   transports := transports s0;
                   sessionsWithInitialNotification :=
                     {[sid]} ∪ sessionsWithInitialNotification s0;
                   diffManager := diffManager s0;
                   openFilesManager := openFilesManager s0;
                   isTrusted := isTrusted s0 |}) as Hget.
  { intros s0 run0 Hadm0 Hr0 Hcb0.
    rewrite (admitted_route s0 req run0 Hadm0). unfold route, get_mcp.
    rewrite decide_True, Hm, Hsid, (truthy_Some sid Hne) by done.
    cbn [from_option id]. unfold transports_get. rewrite Hr0, Hcb0.
    cbn [foldl snd]. by case_decide. }
  assert (sid ∈ sessionsWithInitialNotification s'
          ∧ transports s' = transports s ∧ admitted s' req) as (Hin & Ht & Hadm').
  { subst s'. rewrite (Hget s run Hadm Hr Hcb). case_decide; [done|].
    split_and!; [apply elem_of_union_l; by apply elem_of_singleton|done|].
    destruct Hadm as (Hc & Hh & Ha). by split_and!. }
  split_and!; [done|done| | |].
  - intros Hnot. subst s'. rewrite (Hget s run Hadm Hr Hcb).
    by rewrite decide_False.
  - intros Hyes. subst s'. rewrite (Hget s run Hadm Hr Hcb).
    by rewrite decide_True.
  - intros run' Hcb'. rewrite (Hget s' run' Hadm'); [|by rewrite Ht|done].
    by rewrite decide_True.
Qed.

Lemma first_context_witness :
  let req := mkRequest GET "/mcp" None (Some "localhost:8080")
               (Some "Bearer 0b5c") (Some "sess-1") OtherBody in
  let run := mkSdkRun [] (Sent (mkResponse 200 (FromTransport "stream"))) in
  let s' := (handle_request req run server1).2 in
  "sess-1" ∈ sessionsWithInitialNotification s'
  ∧ objs s' = [mkTransport (Some "sess-1") 0 true [ContextUpdate [] true]]
  ∧ (handle_request req run s').2 = s'.
Proof.
  intros req run s'.
  assert (admitted server1 req) as Hadm by (split_and!; reflexivity).
  assert ("sess-1" ≠ "") as Hne by done.
  destruct (first_context_is_sent_once server1 req run "sess-1" 0
              Hadm eq_refl eq_refl eq_refl Hne eq_refl eq_refl)
    as (Hin & _ & Hobjs & _ & Hagain).
  split_and!; [exact Hin | | by apply Hagain].
  subst s'. rewrite Hobjs; [reflexivity|]. by_compute.
Defined.

(** *** Notifications of the diff manager *)

Lemma with_diffManager_fired d s ns :
  Diff.fired d = Diff.fired (diffManager s) ++ ns →
  with_diffManager d s
  = foldl (λ s n, broadcast (DiffNotification n) s) (set_diffManager d s) ns.
Proof.
  intros Hd. unfold with_diffManager. by rewrite Hd, drop_app_length.
Qed.

Lemma set_diffManager_same s : set_diffManager (diffManager s) s = s.
Proof. by destruct s. Qed.

Lemma teardown_fired u d n :
  Diff.fired (Diff.fire n (Diff.closeDiffEditor u (Diff.openTextDocument u d).2))
  = Diff.fired d ++ [n].
Proof.
  cbn [Diff.fire Diff.fired].
  destruct (DiffCoverage.closeDiffEditor_tables u (Diff.openTextDocument u d).2)
    as (_ & -> & _).
  by destruct (DiffCoverage.openTextDocument_tables u d) as (_ & _ & -> & _).
Qed.

(** When the user accepts or cancels a registered diff in the editor, the
    server sends the notification the manager fires, [ide/diffAccepted] or
    [ide/diffClosed] with the path of the diff and the text of its
    surface, to the transports of the table, as one broadcast; for an
    identifier that is not registered nothing is sent. *)
Theorem decisions_are_broadcast (s : t) (u : Uri) :
  let d := diffManager s in
  match Diff.map_get u (Diff.diffDocuments d) with
  | Some info =>
      step s (AcceptDiff u)
      = broadcast
          (DiffNotification
             (Diff.DiffAccepted (Diff.originalFilePath info)
                (Diff.surface u d)))
          (set_diffManager (Diff.acceptDiff u d) s)
      ∧ step s (CancelDiff u)
        = broadcast
            (DiffNotification
               (Diff.DiffClosed (Diff.originalFilePath info)
                  (Diff.surface u d)))
            (set_diffManager (Diff.cancelDiff u d) s)
  | None =>
      step s (AcceptDiff u) = s
      ∧ objs (step s (CancelDiff u)) = objs s
  end.
Proof.
  intros d. destruct (Diff.map_get u (Diff.diffDocuments d)) as [info|] eqn:Hi.
  - cbn [step]. fold d. split.
    + rewrite (with_diffManager_fired _ s
                 [Diff.DiffAccepted (Diff.originalFilePath info)
                    (Diff.surface u d)]); [done|].
      rewrite (DiffCoverage.acceptDiff_registered u d info Hi).
      apply teardown_fired.
    + rewrite (with_diffManager_fired _ s
                 [Diff.DiffClosed (Diff.originalFilePath info)
                    (Diff.surface u d)]); [done|].
      rewrite (DiffCoverage.cancelDiff_registered u d info Hi).
      apply teardown_fired.
  - cbn [step]. fold d. split.
    + rewrite (DiffFacts.acceptDiff_unknown u d Hi).
      rewrite (with_diffManager_fired _ s []); [|by rewrite app_nil_r].
      apply set_diffManager_same.
    + destruct (DiffCoverage.cancelDiff_unregistered u d Hi) as (Hf & _).
      rewrite (with_diffManager_fired _ s []); [done|].
      by rewrite app_nil_r.
Qed.

(** The two tools. A call of [openDiff] changes the diff manager as
    [showDiff] does and sends nothing to any session. A call of
    [closeDiff] for a path without registered diff changes nothing. For a
    path with one it changes the diff manager as the manager's [closeDiff]
    does, and broadcasts [ide/diffClosed] with the path and the text of
    the surface unless the caller suppressed the notification, in which
    case nothing is sent. *)
Theorem tool_calls_and_notifications (s : t) (r : nat) (p c rand : string)
    (e b : bool) :
  let d := diffManager s in
  callback r s (OpenDiff p c rand e)
  = set_diffManager (Diff.showDiff p c rand e d) s
  ∧ match list_find (λ kv, Diff.originalFilePath kv.2 = p)
            (Diff.diffDocuments d) with
    | Some (_, (u, _)) =>
        callback r s (CloseDiff p b)
        = let s1 := set_diffManager (Diff.closeDiff p b d).2 s in
          if b then s1
          else broadcast
                 (DiffNotification (Diff.DiffClosed p (Diff.surface u d))) s1
    | None => callback r s (CloseDiff p b) = s
    end.
Proof.
  intros d. split.
  - cbn [callback]. fold d.
    rewrite (with_diffManager_fired _ s []); [done|].
    rewrite app_nil_r. apply DiffFacts.showDiff_fired.
  - destruct (list_find _ _) as [[i [u info]]|] eqn:Hfind.
    + cbn [callback]. fold d.
      rewrite (DiffCoverage.closeDiff_found p b d i u info Hfind).
      cbn [snd]. destruct b.
      * rewrite (with_diffManager_fired _ s []); [done|].
        rewrite app_nil_r.
        destruct (DiffCoverage.closeDiffEditor_tables u
                    (Diff.openTextDocument u d).2) as (_ & -> & _).
        by destruct (DiffCoverage.openTextDocument_tables u d)
          as (_ & _ & -> & _).
      * rewrite (with_diffManager_fired _ s
                   [Diff.DiffClosed p (Diff.surface u d)]); [done|].
        apply teardown_fired.
    + cbn [callback]. fold d. unfold Diff.closeDiff. rewrite Hfind.
      cbn [snd]. rewrite (with_diffManager_fired _ s []);
        [apply set_diffManager_same | by rewrite app_nil_r].
Qed.
End ServerCoverage.
